(** * A binary search tree of C [int]s: pointer-level model of sample.c

    The program under study (test-files/sample.c) keeps a binary search
    tree in malloc'ed [struct Node] cells and offers [createNode],
    [insert], [search], [inorderTraversal] and [freeTree], exercised by
    [main].

    The embedding keeps the pointers: a memory is a finite map from
    addresses to node cells, every C function is a computation in a small
    state-and-fault monad over that memory, and recursion through a
    pointer is bounded by an explicit call-depth budget.  Logical trees
    only appear as the shape a region of memory is said to hold. *)

From Stdlib Require Import ZArith Lia List Sorting.Sorted.
From stdpp Require Import base option list sorting gmap sets strings.

Open Scope Z_scope.

#[local] Set Warnings "-clear-no-such-hyp,-unused-intro-pattern".

(** ** Memory *)

(** Addresses of allocated cells.  A C pointer is either [NULL] or the
    address of a cell. *)
Abbreviation loc := positive.
Abbreviation ptr := (option loc).
Abbreviation NULL := (@None loc).

(** [struct Node { int data; struct Node* left; struct Node* right; }].
    The only operations the program performs on [data] are copies and the
    comparisons [<], [>] and [==], which agree on [int] and on [Z]; the
    payload is therefore kept as a [Z]. *)
Record Node : Type := mkNode {
  data : Z;
  left : ptr;
  right : ptr
}.

(** One call of [printf], recorded with its format string as it is spelt
    in the source and the integer arguments it was given. *)
Inductive event : Type :=
  | Printf (fmt : string) (args : list Z).

(** The state of a run: the allocated cells, the number of allocations
    [malloc] is still able to serve, and what was written to standard
    output so far. *)
Record mem : Type := mkMem {
  cells : gmap loc Node;
  avail : nat;
  stdout : list event
}.

(** ** Computations *)

(** A call either returns a value and a memory, or runs into undefined
    behaviour (access through [NULL] or through an address that is not
    allocated), or exceeds its call-depth budget. *)
Inductive outcome (A : Type) : Type :=
  | Done (a : A) (m : mem)
  | Fault
  | Timeout.
Arguments Done {A} a m.
Arguments Fault {A}.
Arguments Timeout {A}.

Definition M (A : Type) : Type := mem -> outcome A.

#[global] Instance M_mret : MRet M := fun A (a : A) m => Done a m.

#[global] Instance M_bind : MBind M := fun A B (k : A -> M B) (c : M A) m =>
  match c m with
  | Done a m' => k a m'
  | Fault => Fault
  | Timeout => Timeout
  end.

(** ** Primitive accesses *)

Definition with_cells (m : mem) (h : gmap loc Node) : mem :=
  mkMem h (avail m) (stdout m).

(** [malloc(sizeof(Node))]: [NULL] when no allocation is left, otherwise
    an address that is not in use.  The content of a new cell is
    indeterminate in C; it is represented by a placeholder that
    [createNode] overwrites field by field before anything reads it. *)
Definition malloc : M ptr :=
  fun m =>
    match avail m with
    | O => Done NULL m
    | S k =>
        let a := fresh (dom (cells m)) in
        Done (Some a) (mkMem (<[a := mkNode 0 NULL NULL]> (cells m)) k (stdout m))
    end.

(** [free(p)]: releases the cell; [free(NULL)] does nothing; releasing an
    address that is not allocated is undefined. *)
Definition free (p : ptr) : M unit :=
  fun m =>
    match p with
    | None => Done tt m
    | Some a =>
        match cells m !! a with
        | Some _ => Done tt (with_cells m (delete a (cells m)))
        | None => Fault
        end
    end.

(** Reading the cell behind a pointer: [p->...] as an rvalue. *)
Definition deref (p : ptr) : M Node :=
  fun m =>
    match p with
    | None => Fault
    | Some a =>
        match cells m !! a with
        | Some c => Done c m
        | None => Fault
        end
    end.

(** Writing one field behind a pointer: [p->field = ...]. *)
Definition update (p : ptr) (f : Node -> Node) : M unit :=
  fun m =>
    match p with
    | None => Fault
    | Some a =>
        match cells m !! a with
        | Some c => Done tt (with_cells m (<[a := f c]> (cells m)))
        | None => Fault
        end
    end.

Definition set_data (v : Z) (c : Node) : Node := mkNode v (left c) (right c).
Definition set_left (q : ptr) (c : Node) : Node := mkNode (data c) q (right c).
Definition set_right (q : ptr) (c : Node) : Node := mkNode (data c) (left c) q.

Definition printf (fmt : string) (args : list Z) : M unit :=
  fun m => Done tt (mkMem (cells m) (avail m) (stdout m ++ [Printf fmt args])).

Definition timeout {A} : M A := fun _ => Timeout.

(** ** The functions of sample.c *)

(** [Node* createNode(int value)].  The result of [malloc] is used without
    a test. *)
Definition createNode (value : Z) : M ptr :=
  newNode ← malloc;
  update newNode (set_data value);;
  update newNode (set_left NULL);;
  update newNode (set_right NULL);;
  mret newNode.

(** [Node* insert(Node* root, int value)]. *)
Fixpoint insert (depth : nat) (root : ptr) (value : Z) : M ptr :=
  match depth with
  | O => timeout
  | S depth' =>
      match root with
      | None => createNode value
      | Some _ =>
          c ← deref root;
          (if value <? data c then
             r ← insert depth' (left c) value;
             update root (set_left r)
           else
             c' ← deref root;
             if value >? data c' then
               r ← insert depth' (right c') value;
               update root (set_right r)
             else mret tt);;
          mret root
      end
  end.

(** [Node* search(Node* root, int value)]. *)
Fixpoint search (depth : nat) (root : ptr) (value : Z) : M ptr :=
  match depth with
  | O => timeout
  | S depth' =>
      match root with
      | None => mret root
      | Some _ =>
          c ← deref root;
          if data c =? value then mret root
          else
            c' ← deref root;
            if value <? data c' then search depth' (left c') value
            else search depth' (right c') value
      end
  end.

(** [void inorderTraversal(Node* root)]. *)
Fixpoint inorderTraversal (depth : nat) (root : ptr) : M unit :=
  match depth with
  | O => timeout
  | S depth' =>
      match root with
      | None => mret tt
      | Some _ =>
          c ← deref root;
          inorderTraversal depth' (left c);;
          c' ← deref root;
          printf "%d " [data c'];;
          c'' ← deref root;
          inorderTraversal depth' (right c'')
      end
  end.

(** [void freeTree(Node* root)]. *)
Fixpoint freeTree (depth : nat) (root : ptr) : M unit :=
  match depth with
  | O => timeout
  | S depth' =>
      match root with
      | None => mret tt
      | Some _ =>
          c ← deref root;
          freeTree depth' (left c);;
          c' ← deref root;
          freeTree depth' (right c');;
          free root
      end
  end.

(** [int main()].  Only the first call of [insert] has its result stored
    in [root]; the six later calls drop it. *)
Definition main (depth : nat) : M Z :=
  let root := NULL in
  root ← insert depth root 50;
  insert depth root 30;;
  insert depth root 70;;
  insert depth root 20;;
  insert depth root 40;;
  insert depth root 60;;
  insert depth root 80;;
  printf "BST in-order traversal: " [];;
  inorderTraversal depth root;;
  printf "\n" [];;
  let searchValue := 40 in
  result ← search depth root searchValue;
  (match result with
   | Some _ => printf "Value %d found in the BST.\n" [searchValue]
   | None => printf "Value %d not found in the BST.\n" [searchValue]
   end);;
  freeTree depth root;;
  mret 0.

(** The reattaching loop [root = insert(root, v)] over a sequence of
    values. *)
Fixpoint insert_all (depth : nat) (root : ptr) (values : list Z) : M ptr :=
  match values with
  | [] => mret root
  | v :: rest =>
      root' ← insert depth root v;
      insert_all depth root' rest
  end.

(** A memory with nothing allocated, nothing printed and [n] allocations
    to come. *)
Definition fresh_mem (n : nat) : mem := mkMem ∅ n [].

(** A memory whose only cell, at address 1, is a node holding 5 with no
    children; one allocation to come. *)
Definition single_mem : mem := mkMem {[1%positive := mkNode 5 NULL NULL]} 1 [].

(** The same cell, with no allocation to come. *)
Definition starved_mem : mem := mkMem {[1%positive := mkNode 5 NULL NULL]} 0 [].

(** A tree that is not ordered: 7 hangs on the left of 5. *)
Definition unordered_mem : mem :=
  mkMem {[1%positive := mkNode 5 (Some 2%positive) NULL;
          2%positive := mkNode 7 NULL NULL]} 0 [].

(** Not a tree: both links of the cell at address 1 lead to the cell at
    address 2. *)
Definition shared_mem : mem :=
  mkMem {[1%positive := mkNode 5 (Some 2%positive) (Some 2%positive);
          2%positive := mkNode 3 NULL NULL]} 0 [].

(** ** Shapes held in memory *)

(** The shape of a linked structure: which value sits where.  A shape is
    not a program value; it is what a region of memory is said to hold. *)
Inductive tree : Type :=
  | Leaf
  | Br (l : tree) (v : Z) (r : tree).

(** Left subtree, node, right subtree. *)
Fixpoint elements (t : tree) : list Z :=
  match t with
  | Leaf => []
  | Br l v r => elements l ++ v :: elements r
  end.

Fixpoint height (t : tree) : nat :=
  match t with
  | Leaf => O
  | Br l _ r => S (Nat.max (height l) (height r))
  end.

(** The ordering invariant on shapes. *)
Fixpoint bst (t : tree) : Prop :=
  match t with
  | Leaf => True
  | Br l v r =>
      Forall (fun x => x < v) (elements l) ∧
      Forall (fun x => v < x) (elements r) ∧
      bst l ∧ bst r
  end.

(** [tree_at h p t F]: following [p] in [h] one finds exactly the shape
    [t], laid out in the cells whose addresses are [F], no cell being
    used twice. *)
Fixpoint tree_at (h : gmap loc Node) (p : ptr) (t : tree) (F : gset loc) : Prop :=
  match t with
  | Leaf => p = NULL ∧ F = ∅
  | Br l v r =>
      exists a pl pr Fl Fr,
        p = Some a ∧ h !! a = Some (mkNode v pl pr) ∧
        tree_at h pl l Fl ∧ tree_at h pr r Fr ∧
        (a ∉ Fl) ∧ (a ∉ Fr) ∧ Fl ## Fr ∧ F = {[a]} ∪ Fl ∪ Fr
  end.

(** The cells one can get to from a pointer by following links. *)
Inductive reach (h : gmap loc Node) : ptr -> loc -> Prop :=
  | reach_here a : reach h (Some a) a
  | reach_left a c b :
      h !! a = Some c -> reach h (left c) b -> reach h (Some a) b
  | reach_right a c b :
      h !! a = Some c -> reach h (right c) b -> reach h (Some a) b.

(** The ordering invariant read off the memory itself: below every
    reachable node, what is reachable through [left] is smaller and what is
    reachable through [right] is larger. *)
Definition ordered (h : gmap loc Node) (root : ptr) : Prop :=
  forall n c, reach h root n -> h !! n = Some c ->
    (forall x cx, reach h (left c) x -> h !! x = Some cx -> data cx < data c) ∧
    (forall x cx, reach h (right c) x -> h !! x = Some cx -> data c < data cx).

(** What [insert] computes, on shapes. *)
Fixpoint ins (v : Z) (t : tree) : tree :=
  match t with
  | Leaf => Br Leaf v Leaf
  | Br l x r =>
      if v <? x then Br (ins v l) x r
      else if v >? x then Br l x (ins v r)
      else t
  end.

(** The format of one visited value. *)
Definition visit (z : Z) : event := Printf "%d " [z].

(** The shape after a sequence of inserts. *)
Fixpoint ins_all (values : list Z) (t : tree) : tree :=
  match values with
  | [] => t
  | v :: rest => ins_all rest (ins v t)
  end.

(** [descends h v p b]: looking for [v] from [p], the comparisons lead
    through the cell [b]. *)
Inductive descends (h : gmap loc Node) (v : Z) : ptr -> loc -> Prop :=
  | descends_here a : descends h v (Some a) a
  | descends_left a c b :
      h !! a = Some c -> v < data c -> descends h v (left c) b ->
      descends h v (Some a) b
  | descends_right a c b :
      h !! a = Some c -> data c < v -> descends h v (right c) b ->
      descends h v (Some a) b.

(** [grown v root h h']: [h'] is [h] with one new cell holding [v] and no
    children, hung on the link where the descent for [v] from [root] ends:
    a link that was [NULL], on the side of its cell that the comparison
    with [v] selects.  Nothing else differs. *)
Inductive grown (v : Z) (root : ptr) (h h' : gmap loc Node) : Prop :=
  | grown_left b c new :
      descends h v root b ->
      h !! b = Some c -> left c = NULL -> v < data c -> new ∉ dom h ->
      h' = <[b := set_left (Some new) c]> (<[new := mkNode v NULL NULL]> h) ->
      grown v root h h'
  | grown_right b c new :
      descends h v root b ->
      h !! b = Some c -> right c = NULL -> data c < v -> new ∉ dom h ->
      h' = <[b := set_right (Some new) c]> (<[new := mkNode v NULL NULL]> h) ->
      grown v root h h'.

(** What [main] prints. *)
Definition main_output : list event :=
  [Printf "BST in-order traversal: " []] ++
  map visit [20; 30; 40; 50; 60; 70; 80] ++
  [Printf "\n" []; Printf "Value %d found in the BST.\n" [40]].

(** ** Proof steps used throughout *)

(** Unfolding the sequencing of computations. *)
Ltac unfold_M := unfold mbind, M_bind, mret, M_mret.

(** The comparisons made at a node: less, greater, or neither. *)
Ltac compare v x :=
  destruct (Z.ltb_spec v x); [|rewrite ?Z.gtb_ltb; destruct (Z.ltb_spec x v)].

(** A call on a shape whose height is below the call depth has at least
    one call left. *)
Tactic Notation "positive_depth" ident(depth) "as" ident(d) "by" hyp(Hd) :=
  destruct depth as [|d]; [cbn in Hd; lia|]; cbn in Hd.

(** Facts about ordered shapes, for [auto]. *)
Create HintDb shape.

(** * Properties *)

(** ** Runs on concrete memories *)

(** [main] with a call depth of four and seven allocations: exit status 0,
    every cell released, every allocation used. *)
Example main_run : main 4 (fresh_mem 7) = Done 0 (mkMem ∅ 0 main_output).
Proof. vm_compute. reflexivity. Qed.

(** One call too few for the deepest insert (20 sits three links down). *)
Example main_run_shallow : main 3 (fresh_mem 7) = Timeout.
Proof. vm_compute. reflexivity. Qed.

(** The seventh allocation fails: the write through [NULL] in [createNode]. *)
Example main_run_starved : main 4 (fresh_mem 6) = Fault.
Proof. vm_compute. reflexivity. Qed.

(** 5 inserted three times is stored and visited once; two of the three
    allocations stay unused. *)
Example insert_5_5_5 :
  (root ← insert_all 2 NULL [5; 5; 5]; inorderTraversal 2 root) (fresh_mem 3) =
    Done tt (mkMem {[1%positive := mkNode 5 NULL NULL]} 2 [visit 5]).
Proof. vm_compute. reflexivity. Qed.

(** A result of [insert] that is dropped at the root of an empty tree is
    lost: the caller's pointer is still [NULL]. *)
Example insert_dropped_at_empty :
  (insert 1 NULL 50;; search 1 NULL 50) (fresh_mem 1) =
    Done NULL (mkMem {[1%positive := mkNode 50 NULL NULL]} 0 []).
Proof. vm_compute. reflexivity. Qed.

(** [ordered] does reject a memory: 7 hangs on the left of 5 here. *)
Example ordered_rejects :
  ~ ordered {[1%positive := mkNode 5 (Some 2%positive) NULL;
              2%positive := mkNode 7 NULL NULL]} (Some 1%positive).
Proof.
  intros H.
  destruct (H 1%positive (mkNode 5 (Some 2%positive) NULL)) as [Hl _];
    [constructor | done |].
  specialize (Hl 2%positive (mkNode 7 NULL NULL)). cbn in Hl.
  assert (7 < 5); [|lia]. apply Hl; [constructor | done].
Qed.

(** ** Memories *)

Lemma with_cells_same m h : h = cells m -> with_cells m h = m.
Proof. intros ->. by destruct m. Qed.

Lemma bind_Done {A B} (c : M A) (k : A -> M B) m a m' :
  c m = Done a m' -> (c ≫= k) m = k a m'.
Proof. unfold mbind, M_bind. by intros ->. Qed.

Lemma bind_inv {A B} (c : M A) (k : A -> M B) m b m2 :
  (c ≫= k) m = Done b m2 -> exists a m1, c m = Done a m1 ∧ k a m1 = Done b m2.
Proof. unfold mbind, M_bind. destruct (c m); [eauto | done | done]. Qed.

Lemma deref_Done a c m : cells m !! a = Some c -> deref (Some a) m = Done c m.
Proof. unfold deref. by intros ->. Qed.

Lemma deref_inv p c m m' :
  deref p m = Done c m' -> exists a, p = Some a ∧ cells m !! a = Some c ∧ m' = m.
Proof.
  unfold deref. destruct p as [a|]; [|done].
  destruct (cells m !! a) eqn:E; [|done]. intros [= -> ->]. eauto.
Qed.

Lemma update_Done a c f m :
  cells m !! a = Some c ->
  update (Some a) f m = Done tt (with_cells m (<[a := f c]> (cells m))).
Proof. unfold update. by intros ->. Qed.

Lemma update_inv p f m u m' :
  update p f m = Done u m' ->
  exists a c, p = Some a ∧ cells m !! a = Some c ∧
              m' = with_cells m (<[a := f c]> (cells m)).
Proof.
  unfold update. destruct p as [a|]; [|done].
  destruct (cells m !! a) eqn:E; [|done]. intros [= _ <-]. eauto.
Qed.

(** ** [createNode] *)

Lemma createNode_Done v m k :
  avail m = S k ->
  createNode v m =
    Done (Some (fresh (dom (cells m))))
         (mkMem (<[fresh (dom (cells m)) := mkNode v NULL NULL]> (cells m)) k (stdout m)).
Proof.
  intros Hk. unfold createNode, malloc, mbind, M_bind, mret, M_mret, update.
  rewrite Hk. cbn. rewrite !lookup_insert_eq. cbn.
  rewrite !lookup_insert_eq. cbn. rewrite !lookup_insert_eq.
  unfold with_cells; cbn. by rewrite !insert_insert_eq.
Qed.

Lemma createNode_Fault v m : avail m = O -> createNode v m = Fault.
Proof.
  intros Hk. unfold createNode, malloc, mbind, M_bind. by rewrite Hk.
Qed.

Lemma createNode_inv v m p m' :
  createNode v m = Done p m' ->
  exists a, (a ∉ dom (cells m)) ∧ p = Some a ∧
    avail m = S (avail m') ∧
    m' = mkMem (<[a := mkNode v NULL NULL]> (cells m)) (avail m') (stdout m).
Proof.
  destruct (avail m) as [|k] eqn:Hk.
  - by rewrite createNode_Fault.
  - rewrite (createNode_Done _ _ k Hk). intros [= <- <-]. cbn.
    exists (fresh (dom (cells m))). split; [apply is_fresh | done].
Qed.

(** ** The effect of [insert] on memory *)

Lemma set_left_same c : set_left (left c) c = c.
Proof. by destruct c. Qed.

Lemma set_right_same c : set_right (right c) c = c.
Proof. by destruct c. Qed.

Lemma grown_below_left v h h' a c :
  h !! a = Some c -> v < data c -> grown v (left c) h h' -> grown v (Some a) h h'.
Proof.
  intros Ha Hlt [b cb new Hd ? ? ? ? ->|b cb new Hd ? ? ? ? ->];
    [eapply grown_left | eapply grown_right]; eauto using descends_left.
Qed.

Lemma grown_below_right v h h' a c :
  h !! a = Some c -> data c < v -> grown v (right c) h h' -> grown v (Some a) h h'.
Proof.
  intros Ha Hlt [b cb new Hd ? ? ? ? ->|b cb new Hd ? ? ? ? ->];
    [eapply grown_left | eapply grown_right]; eauto using descends_right.
Qed.

Lemma grown_lookup_old v root h h' a c q :
  grown v root h h' -> h !! a = Some c ->
  (left c = Some q ∧ v < data c) ∨ (right c = Some q ∧ data c < v) ->
  h' !! a = Some c.
Proof.
  intros Hg Ha Hside.
  assert (Hdom : a ∈ dom h) by (apply elem_of_dom; eauto).
  destruct Hg as [b cb new _ Hb Hnull Hlt Hnew ->|b cb new _ Hb Hnull Hlt Hnew ->].
  - destruct (decide (b = a)) as [->|Hne].
    + rewrite Ha in Hb. injection Hb as <-.
      destruct Hside as [[? ?]|[? ?]]; [congruence | lia].
    + rewrite lookup_insert_ne by done.
      rewrite lookup_insert_ne by (intros ->; done). done.
  - destruct (decide (b = a)) as [->|Hne].
    + rewrite Ha in Hb. injection Hb as <-.
      destruct Hside as [[? ?]|[? ?]]; [lia | congruence].
    + rewrite lookup_insert_ne by done.
      rewrite lookup_insert_ne by (intros ->; done). done.
Qed.

(** Whatever the memory looks like, a call of [insert] that returns
    has either changed nothing or added exactly one cell; it never
    prints. *)
Lemma insert_effect depth : forall root v m p' m',
  insert depth root v m = Done p' m' ->
  stdout m' = stdout m ∧
  match root with
  | None =>
      exists new, (new ∉ dom (cells m)) ∧ p' = Some new ∧
        avail m = S (avail m') ∧
        cells m' = <[new := mkNode v NULL NULL]> (cells m)
  | Some a =>
      p' = Some a ∧
      (m' = m ∨ (avail m = S (avail m') ∧ grown v root (cells m) (cells m')))
  end.
Proof.
  induction depth as [|d IH]; intros root v m p' m' Hrun; [done|].
  destruct root as [a|]; cbn [insert] in Hrun.
  2:{ apply createNode_inv in Hrun as (new & Hnew & -> & Hav & ->). cbn.
      split; [done|]. exists new. done. }
  apply bind_inv in Hrun as (c & m0 & Hc & Hrun).
  apply deref_inv in Hc as (? & [= <-] & Hc & ->).
  apply bind_inv in Hrun as ([] & m2 & Hrun & [= <- <-]).
  assert (Hdom : a ∈ dom (cells m)) by (apply elem_of_dom; eauto).
  destruct (Z.ltb_spec v (data c)) as [Hlt|Hge].
  - apply bind_inv in Hrun as (r & m1 & Hrec & Hupd).
    apply update_inv in Hupd as (? & c1 & [= <-] & Hc1 & ->).
    apply IH in Hrec as [Hout Hrec]. cbn. split; [done|]. split; [done|].
    destruct (left c) as [a2|] eqn:Hl.
    + destruct Hrec as [-> [-> | [Hav Hg]]].
      * rewrite Hc in Hc1. injection Hc1 as <-. left.
        rewrite <- Hl, set_left_same. apply with_cells_same. by apply insert_id.
      * right. split; [done|]. cbn.
        rewrite (grown_lookup_old _ _ _ _ _ _ a2 Hg Hc) in Hc1 by auto.
        injection Hc1 as <-. rewrite <- Hl, set_left_same.
        rewrite insert_id; [|eapply grown_lookup_old; eauto].
        eapply grown_below_left; eauto. by rewrite Hl.
    + destruct Hrec as (new & Hnew & -> & Hav & Hcells). right.
      split; [done|]. cbn.
      rewrite Hcells, lookup_insert_ne in Hc1 by (intros ->; done).
      rewrite Hc in Hc1. injection Hc1 as <-.
      rewrite Hcells. eapply grown_left; eauto using descends_here.
  - apply bind_inv in Hrun as (c' & m0 & Hc' & Hrun).
    apply deref_inv in Hc' as (? & [= <-] & Hc' & ->).
    rewrite Hc in Hc'. injection Hc' as <-.
    rewrite Z.gtb_ltb in Hrun.
    destruct (Z.ltb_spec (data c) v) as [Hgt|Hle].
    2:{ injection Hrun as <-. cbn. auto. }
    apply bind_inv in Hrun as (r & m1 & Hrec & Hupd).
    apply update_inv in Hupd as (? & c1 & [= <-] & Hc1 & ->).
    apply IH in Hrec as [Hout Hrec]. cbn. split; [done|]. split; [done|].
    destruct (right c) as [a2|] eqn:Hr.
    + destruct Hrec as [-> [-> | [Hav Hg]]].
      * rewrite Hc in Hc1. injection Hc1 as <-. left.
        rewrite <- Hr, set_right_same. apply with_cells_same. by apply insert_id.
      * right. split; [done|]. cbn.
        rewrite (grown_lookup_old _ _ _ _ _ _ a2 Hg Hc) in Hc1 by auto.
        injection Hc1 as <-. rewrite <- Hr, set_right_same.
        rewrite insert_id; [|eapply grown_lookup_old; eauto].
        eapply grown_below_right; eauto. by rewrite Hr.
    + destruct Hrec as (new & Hnew & -> & Hav & Hcells). right.
      split; [done|]. cbn.
      rewrite Hcells, lookup_insert_ne in Hc1 by (intros ->; done).
      rewrite Hc in Hc1. injection Hc1 as <-.
      rewrite Hcells. eapply grown_right; eauto using descends_here.
Qed.

(** ** Shapes and the cells they occupy *)

Lemma tree_at_agree t : forall h h' p F,
  tree_at h p t F -> (forall a, a ∈ F -> h' !! a = h !! a) -> tree_at h' p t F.
Proof.
  induction t as [|l IHl x r IHr]; intros h h' p F Ht Hag; [done|].
  destruct Ht as (a & pl & pr & Fl & Fr & -> & Ha & Hl & Hr & ? & ? & ? & ->).
  exists a, pl, pr, Fl, Fr. split_and!; try done.
  - rewrite Hag; [done | set_solver].
  - eapply IHl; [done|]. intros b Hb. apply Hag. set_solver.
  - eapply IHr; [done|]. intros b Hb. apply Hag. set_solver.
Qed.

Lemma tree_at_dom t : forall h p F, tree_at h p t F -> F ⊆ dom h.
Proof.
  induction t as [|l IHl x r IHr]; intros h p F Ht.
  - destruct Ht as [_ ->]. set_solver.
  - destruct Ht as (a & pl & pr & Fl & Fr & -> & Ha & Hl & Hr & ? & ? & ? & ->).
    apply IHl in Hl. apply IHr in Hr.
    assert (a ∈ dom h) by (apply elem_of_dom; eauto). set_solver.
Qed.

Lemma tree_at_NULL h t F : tree_at h NULL t F -> t = Leaf ∧ F = ∅.
Proof.
  destruct t; [by intros [_ ->]|].
  by intros (a & pl & pr & Fl & Fr & ? & _).
Qed.

Lemma tree_at_Some h a t F :
  tree_at h (Some a) t F ->
  exists l r c Fl Fr,
    t = Br l (data c) r ∧ h !! a = Some c ∧
    tree_at h (left c) l Fl ∧ tree_at h (right c) r Fr ∧
    (a ∉ Fl) ∧ (a ∉ Fr) ∧ Fl ## Fr ∧ F = {[a]} ∪ Fl ∪ Fr.
Proof.
  destruct t as [|l x r]; [by intros [? _]|].
  intros (a' & pl & pr & Fl & Fr & [= <-] & Ha & Hl & Hr & ? & ? & ? & ->).
  exists l, r, (mkNode x pl pr), Fl, Fr. done.
Qed.

(** The shape a pointer leads to is determined by the memory. *)
Lemma tree_at_unique t : forall h p F t' F',
  tree_at h p t F -> tree_at h p t' F' -> t' = t ∧ F' = F.
Proof.
  induction t as [|l IHl x r IHr]; intros h p F t' F' Ht Ht'.
  - destruct Ht as [-> ->]. by apply tree_at_NULL in Ht'.
  - destruct Ht as (a & pl & pr & Fl & Fr & -> & Ha & Hl & Hr & ? & ? & ? & ->).
    apply tree_at_Some in Ht'
      as (l' & r' & c & Fl' & Fr' & -> & Hc & Hl' & Hr' & ? & ? & ? & ->).
    rewrite Ha in Hc. injection Hc as <-. cbn in *.
    destruct (IHl _ _ _ _ _ Hl Hl') as [-> ->].
    destruct (IHr _ _ _ _ _ Hr Hr') as [-> ->]. done.
Qed.

(** ** [ins] on shapes *)

Lemma elem_of_elements_ins v t x : x ∈ elements (ins v t) <-> x = v ∨ x ∈ elements t.
Proof.
  induction t as [|l IHl y r IHr]; cbn.
  - set_solver.
  - compare v y; cbn.
    + rewrite !elem_of_app, !elem_of_cons, IHl. tauto.
    + rewrite !elem_of_app, !elem_of_cons, IHr. tauto.
    + rewrite !elem_of_app, !elem_of_cons.
      assert (v = y) by lia. subst. tauto.
Qed.

Lemma bst_ins v t : bst t -> bst (ins v t).
Proof.
  induction t as [|l IHl y r IHr]; cbn.
  - intros _. split_and!; [constructor | constructor | done | done].
  - intros (Hl & Hr & Hbl & Hbr).
    compare v y; cbn.
    + split_and!; auto. apply Forall_forall. intros z Hz.
      apply elem_of_elements_ins in Hz as [->|Hz]; [done|].
      rewrite Forall_forall in Hl. auto.
    + split_and!; auto. apply Forall_forall. intros z Hz.
      apply elem_of_elements_ins in Hz as [->|Hz]; [done|].
      rewrite Forall_forall in Hr. auto.
    + done.
Qed.

Lemma height_ins v t : (height (ins v t) <= S (height t))%nat.
Proof.
  induction t as [|l IHl y r IHr]; cbn; [lia|].
  destruct (v <? y); [cbn; lia|]. destruct (v >? y); cbn; lia.
Qed.

Lemma bst_sorted t : bst t -> StronglySorted Z.lt (elements t).
Proof.
  induction t as [|l IHl y r IHr]; cbn; [constructor|].
  intros (Hl & Hr & Hbl & Hbr).
  apply StronglySorted_app_2; [| auto |].
  - intros x1 x2 H1 H2. rewrite Forall_forall in Hl, Hr.
    apply elem_of_cons in H2 as [->|H2]; [auto|].
    specialize (Hl _ H1). specialize (Hr _ H2). lia.
  - constructor; auto.
Qed.

Lemma bst_Leaf : bst Leaf.
Proof. exact I. Qed.

#[local] Hint Resolve bst_Leaf bst_ins bst_sorted : shape.

(** ** [insert] on a memory that holds a shape *)

(** With one allocation to spare and a call depth above the height,
    [insert] returns, the memory then holds [ins v t], the cells added to
    the footprint were not in use, and every cell outside the new
    footprint is as before. *)
Lemma insert_tree_at t : forall depth p v m F,
  tree_at (cells m) p t F -> (height t < depth)%nat -> (0 < avail m)%nat ->
  exists p' m' F',
    insert depth p v m = Done p' m' ∧
    tree_at (cells m') p' (ins v t) F' ∧
    F ⊆ F' ∧
    (forall b, b ∈ F' -> b ∈ F ∨ b ∉ dom (cells m)) ∧
    (forall b, b ∉ F' -> cells m' !! b = cells m !! b).
Proof.
  induction t as [|l IHl x r IHr]; intros depth p v m F Ht Hd Hav.
  - destruct Ht as [-> ->]. positive_depth depth as d by Hd.
    destruct (avail m) as [|k] eqn:Hk; [lia|]. cbn [insert ins].
    rewrite (createNode_Done _ _ k Hk).
    set (new := fresh (dom (cells m))).
    assert (Hnew : new ∉ dom (cells m)) by apply is_fresh.
    eexists _, _, {[new]}. split; [done|]. cbn. split_and!.
    + exists new, NULL, NULL, ∅, ∅. rewrite lookup_insert_eq.
      split_and!; try done; set_solver.
    + set_solver.
    + intros b Hb. right. set_solver.
    + intros b Hb. apply lookup_insert_ne. set_solver.
  - destruct Ht as (a & pl & pr & Fl & Fr & -> & Ha & Hl & Hr & HaFl & HaFr & Hdisj & ->).
    positive_depth depth as d by Hd.
    assert (Hadom : a ∈ dom (cells m)) by (apply elem_of_dom; eauto).
    pose proof (tree_at_dom _ _ _ _ Hl) as HFl.
    pose proof (tree_at_dom _ _ _ _ Hr) as HFr.
    cbn [insert ins].
    rewrite (bind_Done _ _ _ _ _ (deref_Done _ _ _ Ha)). cbn [data left right].
    destruct (Z.ltb_spec v x) as [Hlt|Hge].
    + destruct (IHl d pl v m Fl Hl ltac:(lia) Hav)
        as (pl' & m1 & Fl' & Hrun & Hl' & Hsub & Hfresh & Hframe).
      assert (HaFl' : a ∉ Fl') by (intros Hin; apply Hfresh in Hin as [?|?]; done).
      assert (Ha1 : cells m1 !! a = Some (mkNode x pl pr)) by (rewrite Hframe; done).
      unfold mbind, M_bind. rewrite Hrun.
      rewrite (update_Done _ _ _ _ Ha1). cbn.
      eexists _, _, ({[a]} ∪ Fl' ∪ Fr). split; [done|]. cbn. split_and!.
      * exists a, pl', pr, Fl', Fr. rewrite lookup_insert_eq. split_and!; try done.
        -- eapply tree_at_agree; [exact Hl'|].
           intros b Hb. apply lookup_insert_ne. intros ->. done.
        -- eapply tree_at_agree; [exact Hr|].
           intros b Hb. rewrite lookup_insert_ne by (intros ->; done).
           apply Hframe. intros Hin. apply Hfresh in Hin as [?|?]; set_solver.
        -- intros b Hb1 Hb2. apply Hfresh in Hb1 as [?|?]; set_solver.
      * set_solver.
      * intros b Hb. apply elem_of_union in Hb as [Hb|Hb]; [|set_solver].
        apply elem_of_union in Hb as [Hb|Hb]; [set_solver|].
        apply Hfresh in Hb as [?|?]; [left; set_solver | by right].
      * intros b Hb. rewrite lookup_insert_ne by set_solver.
        apply Hframe. set_solver.
    + unfold mbind, M_bind. rewrite (deref_Done _ _ _ Ha). cbn [data left right].
      rewrite Z.gtb_ltb. destruct (Z.ltb_spec x v) as [Hgt|Hle].
      * destruct (IHr d pr v m Fr Hr ltac:(lia) Hav)
          as (pr' & m1 & Fr' & Hrun & Hr' & Hsub & Hfresh & Hframe).
        assert (HaFr' : a ∉ Fr') by (intros Hin; apply Hfresh in Hin as [?|?]; done).
        assert (Ha1 : cells m1 !! a = Some (mkNode x pl pr)) by (rewrite Hframe; done).
        rewrite Hrun.
        rewrite (update_Done _ _ _ _ Ha1). cbn.
        eexists _, _, ({[a]} ∪ Fl ∪ Fr'). split; [done|]. cbn. split_and!.
        -- exists a, pl, pr', Fl, Fr'. rewrite lookup_insert_eq. split_and!; try done.
           ++ eapply tree_at_agree; [exact Hl|].
              intros b Hb. rewrite lookup_insert_ne by (intros ->; done).
              apply Hframe. intros Hin. apply Hfresh in Hin as [?|?]; set_solver.
           ++ eapply tree_at_agree; [exact Hr'|].
              intros b Hb. apply lookup_insert_ne. intros ->. done.
           ++ intros b Hb1 Hb2. apply Hfresh in Hb2 as [?|?]; set_solver.
        -- set_solver.
        -- intros b Hb. apply elem_of_union in Hb as [Hb|Hb]; [set_solver|].
           apply Hfresh in Hb as [?|?]; [left; set_solver | by right].
        -- intros b Hb. rewrite lookup_insert_ne by set_solver.
           apply Hframe. set_solver.
      * unfold mret, M_mret.
        eexists _, _, ({[a]} ∪ Fl ∪ Fr). split; [done|]. split_and!.
        -- exists a, pl, pr, Fl, Fr. done.
        -- done.
        -- intros b Hb. by left.
        -- done.
Qed.

(** An [insert] of a value that an ordered shape already holds returns
    the pointer it was given and leaves the whole memory as it was. *)
Lemma insert_present t : forall depth p v m F,
  tree_at (cells m) p t F -> bst t -> v ∈ elements t -> (height t < depth)%nat ->
  insert depth p v m = Done p m.
Proof.
  induction t as [|l IHl x r IHr]; intros depth p v m F Ht Hb Hin Hd.
  - cbn in Hin. by apply elem_of_nil in Hin.
  - destruct Ht as (a & pl & pr & Fl & Fr & -> & Ha & Hl & Hr & _).
    destruct Hb as (Hlo & Hhi & Hbl & Hbr).
    rewrite Forall_forall in Hlo, Hhi.
    positive_depth depth as d by Hd. cbn in Hin.
    apply elem_of_app in Hin. rewrite elem_of_cons in Hin.
    cbn [insert]. unfold_M.
    rewrite (deref_Done _ _ _ Ha). cbn [data left right].
    destruct (Z.ltb_spec v x) as [Hlt|Hge].
    + assert (Hvl : v ∈ elements l).
      { destruct Hin as [?|[->|Hvr]]; [done | lia | apply Hhi in Hvr; lia]. }
      rewrite (IHl d pl v m Fl Hl Hbl Hvl ltac:(lia)).
      rewrite (update_Done _ _ _ _ Ha). cbn.
      f_equal. apply with_cells_same. by apply insert_id.
    + rewrite (deref_Done _ _ _ Ha). cbn [data left right].
      rewrite Z.gtb_ltb. destruct (Z.ltb_spec x v) as [Hgt|Hle]; [|done].
      assert (Hvr : v ∈ elements r).
      { destruct Hin as [Hvl|[->|?]]; [apply Hlo in Hvl; lia | lia | done]. }
      rewrite (IHr d pr v m Fr Hr Hbr Hvr ltac:(lia)).
      rewrite (update_Done _ _ _ _ Ha). cbn.
      f_equal. apply with_cells_same. by apply insert_id.
Qed.

Lemma insert_S d a v :
  insert (S d) (Some a) v =
    (c ← deref (Some a);
     (if v <? data c then
        r ← insert d (left c) v;
        update (Some a) (set_left r)
      else
        c' ← deref (Some a);
        if v >? data c' then
          r ← insert d (right c') v;
          update (Some a) (set_right r)
        else mret tt);;
     mret (Some a)).
Proof. done. Qed.

(** At a cell that holds the value itself, [insert] returns at once. *)
Lemma insert_at_value d a c m :
  cells m !! a = Some c -> insert (S d) (Some a) (data c) m = Done (Some a) m.
Proof.
  intros Hc. cbn [insert]. unfold_M.
  rewrite (deref_Done _ _ _ Hc), Z.ltb_irrefl.
  by rewrite (deref_Done _ _ _ Hc), Z.gtb_ltb, Z.ltb_irrefl.
Qed.

(** Repeating an [insert] that returned changes nothing, in any memory. *)
Lemma insert_again depth : forall p v m p' m',
  insert depth p v m = Done p' m' -> insert depth p' v m' = Done p' m'.
Proof.
  induction depth as [|d IH]; intros p v m p' m' Hrun; [done|].
  destruct p as [a|].
  2:{ cbn [insert] in Hrun.
      apply createNode_inv in Hrun as (new & Hnew & -> & Hav & ->).
      apply (insert_at_value d new (mkNode v NULL NULL)). cbn.
      apply lookup_insert_eq. }
  cbn [insert] in Hrun.
  apply bind_inv in Hrun as (c & m0 & Hc & Hrun).
  apply deref_inv in Hc as (? & [= <-] & Hc & ->).
  apply bind_inv in Hrun as ([] & m2 & Hrun & [= <- <-]).
  assert (Hdom : a ∈ dom (cells m)) by (apply elem_of_dom; eauto).
  destruct (Z.ltb_spec v (data c)) as [Hlt|Hge].
  - apply bind_inv in Hrun as (r & m1 & Hrec & Hupd).
    pose proof (IH _ _ _ _ _ Hrec) as Hrec2.
    pose proof (insert_effect _ _ _ _ _ _ Hrec) as [_ Heff1].
    apply update_inv in Hupd as (? & c1 & [= <-] & Hc1 & ->).
    destruct (left c) as [a2|] eqn:Hl.
    + assert (Hc1' : cells m1 !! a = Some c).
      { destruct Heff1 as [_ [-> | [_ Hg]]]; [done|].
        eapply grown_lookup_old; eauto. }
      destruct Heff1 as [-> _]. rewrite Hc1 in Hc1'. injection Hc1' as ->.
      rewrite <- Hl, set_left_same.
      rewrite with_cells_same by (by apply insert_id).
      cbn [insert]. unfold_M.
      rewrite (deref_Done _ _ _ Hc1). destruct (Z.ltb_spec v (data c)); [|lia].
      rewrite Hl, Hrec2, (update_Done _ _ _ _ Hc1), <- Hl, set_left_same.
      f_equal. apply with_cells_same. by apply insert_id.
    + destruct Heff1 as (new & Hnew & -> & _ & Hcells).
      rewrite Hcells, lookup_insert_ne in Hc1 by (intros ->; done).
      rewrite Hc in Hc1. injection Hc1 as <-.
      destruct d as [|d']; [done|].
      set (m2 := with_cells m1 (<[a:=set_left (Some new) c]> (cells m1))).
      assert (Ha2 : cells m2 !! a = Some (set_left (Some new) c))
        by (cbn; apply lookup_insert_eq).
      assert (Hn2 : cells m2 !! new = Some (mkNode v NULL NULL)).
      { cbn. rewrite lookup_insert_ne by (intros ->; done).
        rewrite Hcells. apply lookup_insert_eq. }
      rewrite insert_S. unfold_M.
      rewrite (deref_Done _ _ _ Ha2). cbn [data left right set_left].
      destruct (Z.ltb_spec v (data c)); [|lia].
      pose proof (insert_at_value d' new _ m2 Hn2) as Hat. cbn [data] in Hat.
      rewrite Hat, (update_Done _ _ _ _ Ha2).
      f_equal. apply with_cells_same. by apply insert_id.
  - apply bind_inv in Hrun as (c' & m0 & Hc' & Hrun).
    apply deref_inv in Hc' as (? & [= <-] & Hc' & ->).
    rewrite Hc in Hc'. injection Hc' as <-.
    rewrite Z.gtb_ltb in Hrun.
    destruct (Z.ltb_spec (data c) v) as [Hgt|Hle].
    2:{ injection Hrun as <-. assert (v = data c) as -> by lia.
        by apply insert_at_value. }
    apply bind_inv in Hrun as (r & m1 & Hrec & Hupd).
    pose proof (IH _ _ _ _ _ Hrec) as Hrec2.
    pose proof (insert_effect _ _ _ _ _ _ Hrec) as [_ Heff1].
    apply update_inv in Hupd as (? & c1 & [= <-] & Hc1 & ->).
    destruct (right c) as [a2|] eqn:Hr.
    + assert (Hc1' : cells m1 !! a = Some c).
      { destruct Heff1 as [_ [-> | [_ Hg]]]; [done|].
        eapply grown_lookup_old; eauto. }
      destruct Heff1 as [-> _]. rewrite Hc1 in Hc1'. injection Hc1' as ->.
      rewrite <- Hr, set_right_same.
      rewrite with_cells_same by (by apply insert_id).
      cbn [insert]. unfold_M.
      rewrite (deref_Done _ _ _ Hc1). destruct (Z.ltb_spec v (data c)); [lia|].
      rewrite (deref_Done _ _ _ Hc1), Z.gtb_ltb.
      destruct (Z.ltb_spec (data c) v); [|lia].
      rewrite Hr, Hrec2, (update_Done _ _ _ _ Hc1), <- Hr, set_right_same.
      f_equal. apply with_cells_same. by apply insert_id.
    + destruct Heff1 as (new & Hnew & -> & _ & Hcells).
      rewrite Hcells, lookup_insert_ne in Hc1 by (intros ->; done).
      rewrite Hc in Hc1. injection Hc1 as <-.
      destruct d as [|d']; [done|].
      set (m2 := with_cells m1 (<[a:=set_right (Some new) c]> (cells m1))).
      assert (Ha2 : cells m2 !! a = Some (set_right (Some new) c))
        by (cbn; apply lookup_insert_eq).
      assert (Hn2 : cells m2 !! new = Some (mkNode v NULL NULL)).
      { cbn. rewrite lookup_insert_ne by (intros ->; done).
        rewrite Hcells. apply lookup_insert_eq. }
      rewrite insert_S. unfold_M.
      rewrite (deref_Done _ _ _ Ha2). cbn [data left right set_right].
      destruct (Z.ltb_spec v (data c)); [lia|].
      rewrite (deref_Done _ _ _ Ha2), Z.gtb_ltb. cbn [data left right set_right].
      destruct (Z.ltb_spec (data c) v); [|lia].
      pose proof (insert_at_value d' new _ m2 Hn2) as Hat. cbn [data] in Hat.
      rewrite Hat, (update_Done _ _ _ _ Ha2).
      f_equal. apply with_cells_same. by apply insert_id.
Qed.

(** ** [search] *)

Lemma search_tree_at t : forall depth p v m F,
  tree_at (cells m) p t F -> bst t -> (height t < depth)%nat ->
  exists q,
    search depth p v m = Done q m ∧
    (v ∈ elements t ->
       exists a c, q = Some a ∧ a ∈ F ∧ cells m !! a = Some c ∧ data c = v) ∧
    (v ∉ elements t -> q = NULL).
Proof.
  induction t as [|l IHl x r IHr]; intros depth p v m F Ht Hb Hd.
  - destruct Ht as [-> ->]. positive_depth depth as d by Hd.
    exists NULL. cbn. split_and!; [done | | done].
    intros Hin. by apply elem_of_nil in Hin.
  - destruct Ht as (a & pl & pr & Fl & Fr & -> & Ha & Hl & Hr & _ & _ & _ & ->).
    destruct Hb as (Hlo & Hhi & Hbl & Hbr).
    rewrite Forall_forall in Hlo, Hhi.
    positive_depth depth as d by Hd.
    cbn [search elements]. unfold_M.
    rewrite (deref_Done _ _ _ Ha). cbn [data left right].
    destruct (Z.eqb_spec x v) as [->|Hne].
    { exists (Some a). split_and!; [done | | ].
      - intros _. exists a, (mkNode v pl pr). split_and!; [done | set_solver | done | done].
      - intros Hnot. exfalso. apply Hnot. set_solver. }
    rewrite (deref_Done _ _ _ Ha). cbn [data left right].
    destruct (Z.ltb_spec v x) as [Hlt|Hge].
    + destruct (IHl d pl v m Fl Hl Hbl ltac:(lia)) as (q & -> & Hyes & Hno).
      exists q. split_and!; [done | |].
      * intros Hin. apply elem_of_app in Hin as [Hin|Hin].
        -- destruct (Hyes Hin) as (b & c & -> & ? & ? & ?).
           exists b, c. split_and!; [done | set_solver | done | done].
        -- apply elem_of_cons in Hin as [->|Hin]; [lia|]. apply Hhi in Hin. lia.
      * intros Hnot. apply Hno. set_solver.
    + destruct (IHr d pr v m Fr Hr Hbr ltac:(lia)) as (q & -> & Hyes & Hno).
      exists q. split_and!; [done | |].
      * intros Hin. apply elem_of_app in Hin as [Hin|Hin].
        -- apply Hlo in Hin. lia.
        -- apply elem_of_cons in Hin as [->|Hin]; [lia|].
           destruct (Hyes Hin) as (b & c & -> & ? & ? & ?).
           exists b, c. split_and!; [done | set_solver | done | done].
      * intros Hnot. apply Hno. set_solver.
Qed.

(** ** [inorderTraversal] *)

Lemma inorderTraversal_tree_at t : forall depth p m F,
  tree_at (cells m) p t F -> (height t < depth)%nat ->
  inorderTraversal depth p m =
    Done tt (mkMem (cells m) (avail m) (stdout m ++ map visit (elements t))).
Proof.
  induction t as [|l IHl x r IHr]; intros depth p m F Ht Hd.
  - destruct Ht as [-> ->]. positive_depth depth as d by Hd.
    cbn. unfold mret, M_mret. rewrite app_nil_r. by destruct m.
  - destruct Ht as (a & pl & pr & Fl & Fr & -> & Ha & Hl & Hr & _).
    positive_depth depth as d by Hd.
    cbn [inorderTraversal elements]. unfold mbind, M_bind.
    rewrite (deref_Done _ _ _ Ha). cbn [data left right].
    rewrite (IHl d pl m Fl Hl ltac:(lia)).
    unfold deref, printf. cbn [cells avail stdout]. rewrite Ha.
    cbn [data left right cells]. rewrite Ha. cbn [right].
    erewrite IHr; [|exact Hr|lia]. cbn [cells avail stdout].
    by rewrite map_app, <- !app_assoc.
Qed.

(** ** [freeTree] *)

Lemma freeTree_tree_at t : forall depth p m F,
  tree_at (cells m) p t F -> (height t < depth)%nat ->
  exists m',
    freeTree depth p m = Done tt m' ∧
    dom (cells m') = dom (cells m) ∖ F ∧
    (forall b, b ∉ F -> cells m' !! b = cells m !! b) ∧
    avail m' = avail m ∧ stdout m' = stdout m.
Proof.
  induction t as [|l IHl x r IHr]; intros depth p m F Ht Hd.
  - destruct Ht as [-> ->]. positive_depth depth as d by Hd.
    exists m. cbn. split_and!; try done. set_solver.
  - destruct Ht as (a & pl & pr & Fl & Fr & -> & Ha & Hl & Hr & HaFl & HaFr & Hdisj & ->).
    positive_depth depth as d by Hd.
    cbn [freeTree]. unfold mbind, M_bind.
    rewrite (deref_Done _ _ _ Ha). cbn [data left right].
    destruct (IHl d pl m Fl Hl ltac:(lia)) as (m1 & -> & Hdom1 & Hfr1 & Hav1 & Hout1).
    assert (Ha1 : cells m1 !! a = Some (mkNode x pl pr)) by (rewrite Hfr1; done).
    rewrite (deref_Done _ _ _ Ha1). cbn [data left right].
    assert (Hr1 : tree_at (cells m1) pr r Fr).
    { eapply tree_at_agree; [exact Hr|]. intros b Hb. apply Hfr1. set_solver. }
    destruct (IHr d pr m1 Fr Hr1 ltac:(lia)) as (m2 & -> & Hdom2 & Hfr2 & Hav2 & Hout2).
    assert (Ha2 : cells m2 !! a = Some (mkNode x pl pr)) by (rewrite Hfr2; done).
    unfold free. rewrite Ha2. eexists. split; [done|]. cbn. split_and!.
    + rewrite dom_delete_L, Hdom2, Hdom1. set_solver.
    + intros b Hb. rewrite lookup_delete_ne by set_solver.
      rewrite Hfr2 by set_solver. apply Hfr1. set_solver.
    + congruence.
    + congruence.
Qed.

(** ** Reachable cells *)

Lemma reach_elements h p x :
  reach h p x ->
  forall t F cx, tree_at h p t F -> h !! x = Some cx -> data cx ∈ elements t.
Proof.
  induction 1 as [a|a c b Ha Hreach IH|a c b Ha Hreach IH]; intros t F cx Ht Hx.
  - apply tree_at_Some in Ht as (l & r & c & Fl & Fr & -> & Hc & _).
    rewrite Hx in Hc. injection Hc as ->. cbn. set_solver.
  - apply tree_at_Some in Ht as (l & r & c' & Fl & Fr & -> & Hc & Hl & _).
    rewrite Ha in Hc. injection Hc as <-. cbn.
    apply elem_of_app. left. eauto.
  - apply tree_at_Some in Ht as (l & r & c' & Fl & Fr & -> & Hc & _ & Hr & _).
    rewrite Ha in Hc. injection Hc as <-. cbn.
    apply elem_of_app. right. apply elem_of_cons. right. eauto.
Qed.

Lemma tree_at_ordered h p n :
  reach h p n ->
  forall t F c, tree_at h p t F -> bst t -> h !! n = Some c ->
    (forall x cx, reach h (left c) x -> h !! x = Some cx -> data cx < data c) ∧
    (forall x cx, reach h (right c) x -> h !! x = Some cx -> data c < data cx).
Proof.
  induction 1 as [a|a c0 b Ha Hreach IH|a c0 b Ha Hreach IH]; intros t F c Ht Hb Hn;
    apply tree_at_Some in Ht as (l & r & c' & Fl & Fr & -> & Hc & Hl & Hr & _);
    destruct Hb as (Hlo & Hhi & Hbl & Hbr).
  - rewrite Hn in Hc. injection Hc as <-.
    rewrite Forall_forall in Hlo, Hhi. split; intros x cx Hx Hcx.
    + apply Hlo. eapply reach_elements; eauto.
    + apply Hhi. eapply reach_elements; eauto.
  - rewrite Ha in Hc. injection Hc as <-. eauto.
  - rewrite Ha in Hc. injection Hc as <-. eauto.
Qed.

(** ** Sequences of inserts *)

Lemma bst_ins_all vs : forall t, bst t -> bst (ins_all vs t).
Proof. induction vs as [|v vs IH]; cbn; auto with shape. Qed.

#[local] Hint Resolve bst_ins_all : shape.

Lemma elem_of_elements_ins_all vs : forall t x,
  x ∈ elements (ins_all vs t) <-> x ∈ vs ∨ x ∈ elements t.
Proof.
  induction vs as [|v vs IH]; intros t x; cbn.
  - set_solver.
  - rewrite IH, elem_of_elements_ins, elem_of_cons. tauto.
Qed.

Lemma height_ins_all vs : forall t, (height (ins_all vs t) <= height t + length vs)%nat.
Proof.
  induction vs as [|v vs IH]; intros t; cbn; [lia|].
  specialize (IH (ins v t)). pose proof (height_ins v t). lia.
Qed.

Lemma height_ins_mono v t : (height t <= height (ins v t))%nat.
Proof.
  induction t as [|l IHl y r IHr]; cbn; [lia|].
  destruct (v <? y); [cbn; lia|]. destruct (v >? y); cbn; lia.
Qed.

Lemma height_ins_all_mono vs : forall t, (height t <= height (ins_all vs t))%nat.
Proof.
  induction vs as [|v vs IH]; intros t; cbn; [lia|].
  specialize (IH (ins v t)). pose proof (height_ins_mono v t). lia.
Qed.

(** The reattaching loop, started on a memory that holds a shape, with a
    call depth above the final height and one allocation per value. *)
Lemma insert_all_tree_at vs : forall t depth p m F,
  tree_at (cells m) p t F ->
  (height (ins_all vs t) < depth)%nat -> (length vs <= avail m)%nat ->
  exists p' m' F',
    insert_all depth p vs m = Done p' m' ∧
    tree_at (cells m') p' (ins_all vs t) F' ∧
    stdout m' = stdout m ∧
    (avail m <= avail m' + length vs)%nat ∧
    F ⊆ F' ∧
    (forall b, b ∈ F' -> b ∈ F ∨ b ∉ dom (cells m)) ∧
    (forall b, b ∉ F' -> cells m' !! b = cells m !! b).
Proof.
  induction vs as [|v vs IH]; intros t depth p m F Ht Hd Hav; cbn in Hd, Hav.
  - exists p, m, F. split_and!; try done; [cbn; lia | auto].
  - pose proof (height_ins_all_mono vs (ins v t)) as Hm1.
    pose proof (height_ins_mono v t) as Hm2.
    destruct (insert_tree_at t depth p v m F Ht ltac:(lia) ltac:(lia))
      as (p1 & m1 & F1 & Hrun & Ht1 & Hsub & Hfresh & Hframe).
    pose proof (insert_effect _ _ _ _ _ _ Hrun) as [Hout Heff].
    assert (Hav1 : (avail m <= S (avail m1))%nat).
    { destruct p; [destruct Heff as [_ [->|[-> _]]]; lia|].
      destruct Heff as (? & _ & _ & -> & _). lia. }
    assert (Hdom1 : dom (cells m) ⊆ dom (cells m1)).
    { destruct p.
      - destruct Heff as [_ [->|[_ Hg]]]; [done|].
        destruct Hg as [????????->|????????->]; rewrite !dom_insert_L; set_solver.
      - destruct Heff as (? & _ & _ & _ & ->). rewrite dom_insert_L. set_solver. }
    destruct (IH (ins v t) depth p1 m1 F1 Ht1 ltac:(lia) ltac:(lia))
      as (p2 & m2 & F2 & Hrun2 & Ht2 & Hout2 & Hav2 & Hsub2 & Hfresh2 & Hframe2).
    exists p2, m2, F2. cbn [insert_all ins_all length]. unfold mbind, M_bind.
    rewrite Hrun. split_and!; [done | done | congruence | lia | set_solver | |].
    + intros b Hb. apply Hfresh2 in Hb as [Hb|Hb]; [by apply Hfresh|].
      right. set_solver.
    + intros b Hb. rewrite Hframe2 by done. apply Hframe. set_solver.
Qed.

(** Two strictly ascending lists with the same members are the same list. *)
Lemma ascending_unique (l1 : list Z) : forall l2,
  StronglySorted Z.lt l1 -> StronglySorted Z.lt l2 ->
  (forall x, x ∈ l1 <-> x ∈ l2) -> l1 = l2.
Proof.
  induction l1 as [|a l1 IH]; intros l2 H1 H2 Hmem.
  - destruct l2 as [|b l2]; [done|].
    exfalso. eapply elem_of_nil. apply Hmem. left.
  - destruct l2 as [|b l2].
    { exfalso. eapply elem_of_nil. apply Hmem. left. }
    apply StronglySorted_cons in H1 as [Ha H1].
    apply StronglySorted_cons in H2 as [Hb H2].
    rewrite Forall_forall in Ha, Hb.
    assert (a = b) as <-.
    { assert (Ha' : a ∈ b :: l2) by (apply Hmem; left).
      assert (Hb' : b ∈ a :: l1) by (apply Hmem; left).
      apply elem_of_cons in Ha' as [?|Ha']; [done|].
      apply elem_of_cons in Hb' as [?|Hb']; [done|].
      apply Hb in Ha'. apply Ha in Hb'. lia. }
    f_equal. apply IH; [done | done |].
    intros x. split; intros Hx.
    + assert (Hx' : x ∈ a :: l2) by (apply Hmem; by right).
      apply elem_of_cons in Hx' as [->|?]; [|done]. apply Ha in Hx. lia.
    + assert (Hx' : x ∈ a :: l1) by (apply Hmem; by right).
      apply elem_of_cons in Hx' as [->|?]; [|done]. apply Hb in Hx. lia.
Qed.

Lemma ascending_NoDup (l : list Z) : StronglySorted Z.lt l -> NoDup l.
Proof.
  induction 1 as [|a l Hs IH Ha]; constructor; [|done].
  intros Hin. rewrite Forall_forall in Ha. apply Ha in Hin. lia.
Qed.

(** ** Calls that return whatever the values are *)

Lemma search_total t : forall depth p v m F,
  tree_at (cells m) p t F -> (height t < depth)%nat ->
  exists q, search depth p v m = Done q m.
Proof.
  induction t as [|l IHl x r IHr]; intros depth p v m F Ht Hd.
  - destruct Ht as [-> ->]. positive_depth depth as d by Hd. by exists NULL.
  - destruct Ht as (a & pl & pr & Fl & Fr & -> & Ha & Hl & Hr & _).
    positive_depth depth as d by Hd.
    cbn [search]. unfold_M.
    rewrite (deref_Done _ _ _ Ha). cbn [data left right].
    destruct (x =? v); [by eexists|].
    rewrite (deref_Done _ _ _ Ha). cbn [data left right].
    destruct (v <? x); [eapply IHl | eapply IHr]; eauto; lia.
Qed.

Lemma createNode_no_Timeout v m : createNode v m ≠ Timeout.
Proof.
  destruct (avail m) as [|k] eqn:Hk.
  - by rewrite createNode_Fault.
  - by rewrite (createNode_Done _ _ k).
Qed.

Lemma update_no_Timeout p f m : update p f m ≠ Timeout.
Proof. unfold update. destruct p; [|done]. by destruct (cells m !! _). Qed.

(** On a memory that holds a shape, [insert] never exceeds a call depth
    above the height, even when the allocator gives out. *)
Lemma insert_no_Timeout t : forall depth p v m F,
  tree_at (cells m) p t F -> (height t < depth)%nat ->
  insert depth p v m ≠ Timeout.
Proof.
  induction t as [|l IHl x r IHr]; intros depth p v m F Ht Hd.
  - destruct Ht as [-> ->]. positive_depth depth as d by Hd.
    apply createNode_no_Timeout.
  - destruct Ht as (a & pl & pr & Fl & Fr & -> & Ha & Hl & Hr & _).
    positive_depth depth as d by Hd.
    cbn [insert]. unfold_M.
    rewrite (deref_Done _ _ _ Ha). cbn [data left right].
    destruct (v <? x).
    + pose proof (IHl d pl v m Fl Hl ltac:(lia)) as Hrec.
      destruct (insert d pl v m) as [q m1| |]; [|done|done].
      pose proof (update_no_Timeout (Some a) (set_left q) m1).
      by destruct (update (Some a) (set_left q) m1).
    + rewrite (deref_Done _ _ _ Ha). cbn [data left right].
      destruct (v >? x); [|done].
      pose proof (IHr d pr v m Fr Hr ltac:(lia)) as Hrec.
      destruct (insert d pr v m) as [q m1| |]; [|done|done].
      pose proof (update_no_Timeout (Some a) (set_right q) m1).
      by destruct (update (Some a) (set_right q) m1).
Qed.

(** Under [grown], every cell that existed keeps its value. *)
Lemma grown_data v root h h' b c :
  grown v root h h' -> h !! b = Some c ->
  exists c', h' !! b = Some c' ∧ data c' = data c.
Proof.
  intros Hg Hb.
  assert (Hdom : b ∈ dom h) by (apply elem_of_dom; eauto).
  destruct Hg as [b0 c0 new _ Hb0 _ _ Hnew ->|b0 c0 new _ Hb0 _ _ Hnew ->];
    (destruct (decide (b0 = b)) as [->|Hne];
     [rewrite lookup_insert_eq; rewrite Hb in Hb0; injection Hb0 as <-; eauto
     |rewrite lookup_insert_ne by done;
      rewrite lookup_insert_ne by (intros ->; done); eauto]).
Qed.

(** The empty tree is held by every memory. *)
Lemma tree_at_empty h : tree_at h NULL Leaf ∅.
Proof. done. Qed.

(** The loop started on the empty tree: it returns, and the memory then
    holds an ordered shape whose values are the inserted ones. *)
Lemma insert_all_from_empty values depth m :
  (height (ins_all values Leaf) < depth)%nat -> (length values <= avail m)%nat ->
  exists root m' t F,
    insert_all depth NULL values m = Done root m' ∧
    tree_at (cells m') root t F ∧ t = ins_all values Leaf ∧ bst t ∧
    (forall x, x ∈ elements t <-> x ∈ values) ∧
    stdout m' = stdout m ∧
    (avail m <= avail m' + length values)%nat ∧
    F ## dom (cells m) ∧
    (forall b, b ∉ F -> cells m' !! b = cells m !! b).
Proof.
  intros Hd Hav.
  destruct (insert_all_tree_at values Leaf depth NULL m ∅ (tree_at_empty _) Hd Hav)
    as (root & m' & F & Hrun & Ht & Hout & Hav' & _ & Hfresh & Hframe).
  exists root, m', (ins_all values Leaf), F. split_and!; try done.
  - auto with shape.
  - intros x. rewrite elem_of_elements_ins_all. cbn. set_solver.
  - intros b Hb Hb'. apply Hfresh in Hb as [?|?]; set_solver.
Qed.

Lemma height_from_empty values : (height (ins_all values Leaf) <= length values)%nat.
Proof. apply (height_ins_all values Leaf). Qed.

(** ** The driver *)

(** [main] run on any memory with seven allocations to come and a call
    depth of four: it returns 0, has printed [main_output], and has
    released every cell it allocated. *)
Lemma main_runs depth m :
  (3 < depth)%nat -> (7 <= avail m)%nat ->
  exists m',
    main depth m = Done 0 m' ∧
    cells m' = cells m ∧
    stdout m' = stdout m ++ main_output.
Proof.
  intros Hd Hav.
  destruct (insert_all_from_empty [50; 30; 70; 20; 40; 60; 80] depth m)
    as (root & m1 & t & F & Hrun & Ht & -> & Hb & Hmem & Hout & _ & Hfresh & Hframe);
    [cbn; lia | cbn; lia |].
  cbn [insert_all] in Hrun.
  apply bind_inv in Hrun as (r1 & ma & H1 & Hrun).
  apply bind_inv in Hrun as (r2 & mb & H2 & Hrun).
  apply bind_inv in Hrun as (r3 & mc & H3 & Hrun).
  apply bind_inv in Hrun as (r4 & md & H4 & Hrun).
  apply bind_inv in Hrun as (r5 & me & H5 & Hrun).
  apply bind_inv in Hrun as (r6 & mf & H6 & Hrun).
  apply bind_inv in Hrun as (r7 & mg & H7 & [= -> ->]).
  pose proof (insert_effect _ _ _ _ _ _ H1) as [_ (a & _ & -> & _)].
  pose proof (insert_effect _ _ _ _ _ _ H2) as [_ [-> _]].
  pose proof (insert_effect _ _ _ _ _ _ H3) as [_ [-> _]].
  pose proof (insert_effect _ _ _ _ _ _ H4) as [_ [-> _]].
  pose proof (insert_effect _ _ _ _ _ _ H5) as [_ [-> _]].
  pose proof (insert_effect _ _ _ _ _ _ H6) as [_ [-> _]].
  pose proof (insert_effect _ _ _ _ _ _ H7) as [_ [-> _]].
  unfold main, mbind, M_bind. rewrite H1, H2, H3, H4, H5, H6, H7.
  unfold printf. cbv beta iota.
  assert (Hh : (height (ins_all [50; 30; 70; 20; 40; 60; 80]%Z Leaf) < depth)%nat)
    by (cbn; lia).
  set (m2 := mkMem (cells m1) (avail m1) _).
  rewrite (inorderTraversal_tree_at _ depth (Some a) m2 F Ht Hh).
  cbn [cells avail stdout m2].
  set (m3 := mkMem (cells m1) (avail m1) _).
  destruct (search_tree_at _ depth (Some a) 40 m3 F Ht Hb Hh) as (q & Hq & Hyes & _).
  rewrite Hq.
  destruct Hyes as (b & cb & -> & _); [apply Hmem; set_solver|].
  cbn [cells avail stdout m3].
  set (m4 := mkMem (cells m1) (avail m1) _).
  destruct (freeTree_tree_at _ depth (Some a) m4 F Ht Hh)
    as (m5 & -> & Hdom & Hfr & _ & Hout5).
  exists m5. split_and!; [done | |].
  - apply map_eq. intros x. destruct (decide (x ∈ F)) as [Hx|Hx].
    + assert (Hn5 : x ∉ dom (cells m5)) by (rewrite Hdom; set_solver).
      assert (Hn : x ∉ dom (cells m)) by set_solver.
      apply not_elem_of_dom in Hn5, Hn. congruence.
    + rewrite Hfr by done. cbn. by apply Hframe.
  - rewrite Hout5. cbn [stdout m4 m3 m2]. rewrite Hout.
    unfold main_output. by rewrite <- !app_assoc.
Qed.

(** * The claims *)

(** C1.  For every finite sequence of values inserted from the empty tree
    (with a call depth above the number of values and one allocation per
    value), the loop returns and the memory it leaves satisfies the search
    tree invariant: at every node N reachable from the root, every value
    reachable through N's left link is strictly less than N's value and
    every value reachable through N's right link is strictly greater.
    Equivalently, the memory holds an ordered shape at the root. *)
Theorem insert_all_ordered (values : list Z) (depth : nat) (m : mem) :
  (length values < depth)%nat -> (length values <= avail m)%nat ->
  exists root m',
    insert_all depth NULL values m = Done root m' ∧
    ordered (cells m') root ∧
    exists t F, tree_at (cells m') root t F ∧ bst t.
Proof.
  intros Hd Hav. pose proof (height_from_empty values) as Hh.
  destruct (insert_all_from_empty values depth m ltac:(lia) Hav)
    as (root & m' & t & F & Hrun & Ht & _ & Hb & _).
  exists root, m'. split_and!; [done | | by exists t, F].
  intros n c Hreach Hn. eapply tree_at_ordered; eauto.
Qed.

Lemma insert_all_ordered_witness :
  (length [50; 30; 70; 20; 40; 60; 80]%Z < 8)%nat ∧
  (length [50; 30; 70; 20; 40; 60; 80]%Z <= avail (fresh_mem 7))%nat ∧
  exists root m',
    insert_all 8 NULL [50; 30; 70; 20; 40; 60; 80] (fresh_mem 7) = Done root m' ∧
    ordered (cells m') root ∧
    exists t F, tree_at (cells m') root t F ∧ bst t.
Proof.
  split; [cbn; lia|]. split; [cbn; lia|].
  apply (insert_all_ordered [50; 30; 70; 20; 40; 60; 80] 8 (fresh_mem 7)); cbn; lia.
Defined.

(** C2.  After any sequence of inserts from the empty tree, [search] for
    a value of the sequence returns the address of a cell whose value is
    that value, and [search] for a value that does not occur in the
    sequence returns [NULL]; in both cases the memory is left as it was. *)
Theorem search_after_inserts (values : list Z) (depth : nat) (m : mem) (v : Z) :
  (length values < depth)%nat -> (length values <= avail m)%nat ->
  exists root m' q,
    insert_all depth NULL values m = Done root m' ∧
    search depth root v m' = Done q m' ∧
    (v ∈ values -> exists a c, q = Some a ∧ cells m' !! a = Some c ∧ data c = v) ∧
    (v ∉ values -> q = NULL).
Proof.
  intros Hd Hav. pose proof (height_from_empty values) as Hh.
  destruct (insert_all_from_empty values depth m ltac:(lia) Hav)
    as (root & m' & t & F & Hrun & Ht & -> & Hb & Hmem & _).
  destruct (search_tree_at _ depth root v m' F Ht Hb ltac:(lia))
    as (q & Hq & Hyes & Hno).
  exists root, m', q. split_and!; [done | done | |].
  - intros Hin. apply Hmem in Hin. destruct (Hyes Hin) as (a & c & -> & _ & ? & ?).
    by exists a, c.
  - intros Hnot. apply Hno. by rewrite Hmem.
Qed.

Lemma search_after_inserts_witness :
  (length [5; 3; 8]%Z < 4)%nat ∧ (length [5; 3; 8]%Z <= avail (fresh_mem 3))%nat ∧
  exists root m' q,
    insert_all 4 NULL [5; 3; 8] (fresh_mem 3) = Done root m' ∧
    search 4 root 8 m' = Done q m' ∧
    (8 ∈ [5; 3; 8] -> exists a c, q = Some a ∧ cells m' !! a = Some c ∧ data c = 8) ∧
    (8 ∉ [5; 3; 8] -> q = NULL).
Proof.
  split; [cbn; lia|]. split; [cbn; lia|].
  apply (search_after_inserts [5; 3; 8] 4 (fresh_mem 3) 8); cbn; lia.
Defined.

(** C3.  After any sequence of inserts from the empty tree, the traversal
    returns, leaves the cells alone, and appends to the output one visit
    per distinct inserted value, in strictly ascending order: the visited
    values are strictly sorted, free of repetition, and are exactly the
    values of the sequence. *)
Theorem traversal_after_inserts (values : list Z) (depth : nat) (m : mem) :
  (length values < depth)%nat -> (length values <= avail m)%nat ->
  exists root m' m'' out,
    insert_all depth NULL values m = Done root m' ∧
    inorderTraversal depth root m' = Done tt m'' ∧
    cells m'' = cells m' ∧
    stdout m'' = stdout m ++ map visit out ∧
    StronglySorted Z.lt out ∧ NoDup out ∧
    (forall x, x ∈ out <-> x ∈ values).
Proof.
  intros Hd Hav. pose proof (height_from_empty values) as Hh.
  destruct (insert_all_from_empty values depth m ltac:(lia) Hav)
    as (root & m' & t & F & Hrun & Ht & -> & Hb & Hmem & Hout & _).
  pose proof (inorderTraversal_tree_at _ depth root m' F Ht ltac:(lia)) as Htrav.
  eexists root, m', _, (elements (ins_all values Leaf)).
  split_and!; [done | exact Htrav | done | by cbn; rewrite Hout | | | done].
  - auto with shape.
  - auto using ascending_NoDup with shape.
Qed.

Lemma traversal_after_inserts_witness :
  (length [5; 5; 5]%Z < 4)%nat ∧ (length [5; 5; 5]%Z <= avail (fresh_mem 3))%nat ∧
  exists root m' m'' out,
    insert_all 4 NULL [5; 5; 5] (fresh_mem 3) = Done root m' ∧
    inorderTraversal 4 root m' = Done tt m'' ∧
    cells m'' = cells m' ∧
    stdout m'' = stdout (fresh_mem 3) ++ map visit out ∧
    StronglySorted Z.lt out ∧ NoDup out ∧
    (forall x, x ∈ out <-> x ∈ [5; 5; 5]).
Proof.
  split; [cbn; lia|]. split; [cbn; lia|].
  apply (traversal_after_inserts [5; 5; 5] 4 (fresh_mem 3)); cbn; lia.
Defined.

(** C4.  On a memory that holds an ordered shape (the search tree of the
    data model), with a call depth above its height:
    inserting a value the shape already holds returns the pointer that
    was passed and leaves the memory exactly as it was, cells, output and
    allocator alike, so that neither the shape nor the in-order sequence
    changes; and for any value, when an allocation is available, [insert]
    returns and inserting the same value once more into its result returns
    the same pointer and the same memory. *)
Theorem insert_duplicate (t : tree) (depth : nat) (p : ptr) (v : Z) (m : mem)
    (F : gset loc) :
  tree_at (cells m) p t F -> bst t -> (height t < depth)%nat ->
  (v ∈ elements t -> insert depth p v m = Done p m) ∧
  ((0 < avail m)%nat ->
     exists p' m',
       insert depth p v m = Done p' m' ∧
       insert depth p' v m' = Done p' m').
Proof.
  intros Ht Hb Hd. split.
  - intros Hin. by eapply insert_present.
  - intros Hav.
    destruct (insert_tree_at t depth p v m F Ht Hd Hav) as (p' & m' & F' & Hrun & _).
    exists p', m'. split; [done|]. by eapply insert_again.
Qed.

Lemma single_mem_tree :
  tree_at (cells single_mem) (Some 1%positive) (Br Leaf 5 Leaf) ({[1%positive]} ∪ ∅ ∪ ∅).
Proof.
  exists 1%positive, NULL, NULL, ∅, ∅.
  split_and!; done.
Defined.

Lemma insert_duplicate_witness :
  tree_at (cells single_mem) (Some 1%positive) (Br Leaf 5 Leaf) ({[1%positive]} ∪ ∅ ∪ ∅) ∧
  bst (Br Leaf 5 Leaf) ∧ (height (Br Leaf 5 Leaf) < 2)%nat ∧
  (5 ∈ elements (Br Leaf 5 Leaf) ->
     insert 2 (Some 1%positive) 5 single_mem = Done (Some 1%positive) single_mem) ∧
  ((0 < avail single_mem)%nat ->
     exists p' m',
       insert 2 (Some 1%positive) 5 single_mem = Done p' m' ∧
       insert 2 p' 5 m' = Done p' m').
Proof.
  assert (Hb : bst (Br Leaf 5 Leaf)) by (cbn; split_and!; constructor).
  split; [exact single_mem_tree|]. split; [exact Hb|]. split; [cbn; lia|].
  apply (insert_duplicate (Br Leaf 5 Leaf) 2 (Some 1%positive) 5 single_mem
           ({[1%positive]} ∪ ∅ ∪ ∅) single_mem_tree Hb).
  cbn; lia.
Defined.

(** C5.  On every memory that holds a (finite) shape at the pointer
    passed, each of the four recursive functions returns within a call
    depth bounded by the height of the shape: [search], [inorderTraversal]
    and [freeTree] return normally; [insert] never exceeds the depth, and
    returns normally as soon as one allocation is available (without one it
    stops in [createNode]'s fault, see C9). *)
Theorem operations_terminate (t : tree) (depth : nat) (p : ptr) (v : Z) (m : mem)
    (F : gset loc) :
  tree_at (cells m) p t F -> (height t < depth)%nat ->
  (exists q, search depth p v m = Done q m) ∧
  (exists m', inorderTraversal depth p m = Done tt m') ∧
  (exists m', freeTree depth p m = Done tt m') ∧
  insert depth p v m ≠ Timeout ∧
  ((0 < avail m)%nat -> exists p' m', insert depth p v m = Done p' m').
Proof.
  intros Ht Hd. split_and!.
  - by eapply search_total.
  - eexists. by eapply inorderTraversal_tree_at.
  - destruct (freeTree_tree_at t depth p m F Ht Hd) as (m' & Hrun & _). by exists m'.
  - by eapply insert_no_Timeout.
  - intros Hav.
    destruct (insert_tree_at t depth p v m F Ht Hd Hav) as (p' & m' & F' & Hrun & _).
    by exists p', m'.
Qed.

Lemma operations_terminate_witness :
  tree_at (cells single_mem) (Some 1%positive) (Br Leaf 5 Leaf) ({[1%positive]} ∪ ∅ ∪ ∅) ∧
  (height (Br Leaf 5 Leaf) < 2)%nat ∧
  (exists q, search 2 (Some 1%positive) 7 single_mem = Done q single_mem) ∧
  (exists m', inorderTraversal 2 (Some 1%positive) single_mem = Done tt m') ∧
  (exists m', freeTree 2 (Some 1%positive) single_mem = Done tt m') ∧
  insert 2 (Some 1%positive) 7 single_mem ≠ Timeout ∧
  ((0 < avail single_mem)%nat ->
     exists p' m', insert 2 (Some 1%positive) 7 single_mem = Done p' m').
Proof.
  split; [exact single_mem_tree|]. split; [cbn; lia|].
  apply (operations_terminate (Br Leaf 5 Leaf) 2 (Some 1%positive) 7 single_mem
           ({[1%positive]} ∪ ∅ ∪ ∅) single_mem_tree).
  cbn; lia.
Defined.

(** C6.  On the empty tree, whatever the memory: one call of [search]
    returns [NULL] for any value, and one call of [inorderTraversal]
    returns having printed nothing; neither changes the memory, and
    neither calls itself (a call depth of one is enough). *)
Theorem empty_tree_operations (depth : nat) (v : Z) (m : mem) :
  search (S depth) NULL v m = Done NULL m ∧
  inorderTraversal (S depth) NULL m = Done tt m.
Proof. done. Qed.

(** C7.  On any memory with seven allocations to come, with a call depth
    of four or more: inserting 50, 30, 70, 20, 40, 60, 80 from the empty
    tree returns a root on which the traversal prints 20 30 40 50 60 70 80,
    [search] for 40 returns the address of a cell holding 40, and [search]
    for 99 returns [NULL]; and [main], which performs these inserts,
    returns 0 having printed the label, the seven values, the newline and
    the message that 40 was found. *)
Theorem end_to_end_scenario (depth : nat) (m : mem) :
  (3 < depth)%nat -> (7 <= avail m)%nat ->
  exists root m',
    insert_all depth NULL [50; 30; 70; 20; 40; 60; 80] m = Done root m' ∧
    inorderTraversal depth root m' =
      Done tt (mkMem (cells m') (avail m')
                 (stdout m' ++ map visit [20; 30; 40; 50; 60; 70; 80])) ∧
    (exists a c, search depth root 40 m' = Done (Some a) m' ∧
                 cells m' !! a = Some c ∧ data c = 40) ∧
    search depth root 99 m' = Done NULL m' ∧
    exists m'', main depth m = Done 0 m'' ∧ stdout m'' = stdout m ++ main_output.
Proof.
  intros Hd Hav.
  destruct (insert_all_from_empty [50; 30; 70; 20; 40; 60; 80] depth m)
    as (root & m1 & t & F & Hrun & Ht & -> & Hb & Hmem & _);
    [cbn; lia | cbn; lia |].
  assert (Hh : (height (ins_all [50; 30; 70; 20; 40; 60; 80]%Z Leaf) < depth)%nat)
    by (cbn; lia).
  exists root, m1. split_and!.
  - done.
  - by rewrite (inorderTraversal_tree_at _ depth root m1 F Ht Hh).
  - destruct (search_tree_at _ depth root 40 m1 F Ht Hb Hh) as (q & Hq & Hyes & _).
    destruct Hyes as (a & c & -> & _ & Hc & Hdata); [apply Hmem; set_solver|].
    by exists a, c.
  - destruct (search_tree_at _ depth root 99 m1 F Ht Hb Hh) as (q & Hq & _ & Hno).
    rewrite Hq, Hno; [done|]. rewrite Hmem. set_solver.
  - destruct (main_runs depth m Hd Hav) as (m'' & Hmain & _ & Hout). by exists m''.
Qed.

Lemma end_to_end_scenario_witness :
  (3 < 4)%nat ∧ (7 <= avail (fresh_mem 7))%nat ∧
  exists root m',
    insert_all 4 NULL [50; 30; 70; 20; 40; 60; 80] (fresh_mem 7) = Done root m' ∧
    inorderTraversal 4 root m' =
      Done tt (mkMem (cells m') (avail m')
                 (stdout m' ++ map visit [20; 30; 40; 50; 60; 70; 80])) ∧
    (exists a c, search 4 root 40 m' = Done (Some a) m' ∧
                 cells m' !! a = Some c ∧ data c = 40) ∧
    search 4 root 99 m' = Done NULL m' ∧
    exists m'', main 4 (fresh_mem 7) = Done 0 m'' ∧
                stdout m'' = stdout (fresh_mem 7) ++ main_output.
Proof.
  split; [lia|]. split; [cbn; lia|].
  apply (end_to_end_scenario 4 (fresh_mem 7)); cbn; lia.
Defined.

(** C8.  On a memory that holds a non-empty tree at [root], with a call
    depth above its height and one allocation to spare, [insert] returns
    the very pointer it was given; every cell that was allocated keeps its
    value, the cell of the root included; and either the memory is
    unchanged, or exactly one cell was allocated, holding the value and two
    [NULL] links, and hung on the [NULL] link where the descent for the
    value from the root ends, no other field of any cell being changed. *)
Theorem insert_keeps_root (t : tree) (depth : nat) (a : loc) (v : Z) (m : mem)
    (F : gset loc) :
  tree_at (cells m) (Some a) t F -> (height t < depth)%nat -> (0 < avail m)%nat ->
  exists m',
    insert depth (Some a) v m = Done (Some a) m' ∧
    (forall b c, cells m !! b = Some c ->
       exists c', cells m' !! b = Some c' ∧ data c' = data c) ∧
    (m' = m ∨
     (avail m = S (avail m') ∧ stdout m' = stdout m ∧
      grown v (Some a) (cells m) (cells m'))).
Proof.
  intros Ht Hd Hav.
  destruct (insert_tree_at t depth (Some a) v m F Ht Hd Hav)
    as (p' & m' & F' & Hrun & _).
  pose proof (insert_effect _ _ _ _ _ _ Hrun) as [Hout [-> Heff]].
  exists m'. split; [done|]. split.
  - intros b c Hb. destruct Heff as [->|[_ Hg]]; [eauto|].
    eapply grown_data; eauto.
  - destruct Heff as [->|[? ?]]; auto.
Qed.

Lemma insert_keeps_root_witness :
  tree_at (cells single_mem) (Some 1%positive) (Br Leaf 5 Leaf) ({[1%positive]} ∪ ∅ ∪ ∅) ∧
  (height (Br Leaf 5 Leaf) < 2)%nat ∧ (0 < avail single_mem)%nat ∧
  exists m',
    insert 2 (Some 1%positive) 3 single_mem = Done (Some 1%positive) m' ∧
    (forall b c, cells single_mem !! b = Some c ->
       exists c', cells m' !! b = Some c' ∧ data c' = data c) ∧
    (m' = single_mem ∨
     (avail single_mem = S (avail m') ∧ stdout m' = stdout single_mem ∧
      grown 3 (Some 1%positive) (cells single_mem) (cells m'))).
Proof.
  split; [exact single_mem_tree|]. split; [cbn; lia|]. split; [cbn; lia|].
  apply (insert_keeps_root (Br Leaf 5 Leaf) 2 1%positive 3 single_mem
           ({[1%positive]} ∪ ∅ ∪ ∅) single_mem_tree); cbn; lia.
Defined.

(** C9.  [createNode] uses the result of [malloc] without testing it: when
    the allocation fails, [malloc] returns [NULL], the first field write
    goes through that [NULL] pointer, and the call ends in undefined
    behaviour instead of reporting the failure; so does an [insert] that
    reaches an absent position. *)
Theorem createNode_unchecked (v : Z) (m : mem) (depth : nat) :
  avail m = O ->
  malloc m = Done NULL m ∧
  update NULL (set_data v) m = Fault ∧
  createNode v m = Fault ∧
  insert (S depth) NULL v m = Fault.
Proof.
  intros Hav. split_and!.
  - unfold malloc. by rewrite Hav.
  - done.
  - by apply createNode_Fault.
  - by apply createNode_Fault.
Qed.

Lemma createNode_unchecked_witness :
  avail (fresh_mem 0) = O ∧
  malloc (fresh_mem 0) = Done NULL (fresh_mem 0) ∧
  update NULL (set_data 50) (fresh_mem 0) = Fault ∧
  createNode 50 (fresh_mem 0) = Fault ∧
  insert 1 NULL 50 (fresh_mem 0) = Fault.
Proof.
  split; [reflexivity|].
  apply (createNode_unchecked 50 (fresh_mem 0) 0). reflexivity.
Defined.

(** C10.  Two sequences of inserts with the same set of values, in any
    order and with any repetitions, each run from the empty tree on its own
    memory, lead to traversals that append the same visits to the output:
    what is printed depends only on the set of inserted values. *)
Theorem traversal_order_independent (values1 values2 : list Z) (depth : nat)
    (m1 m2 : mem) :
  (forall x, x ∈ values1 <-> x ∈ values2) ->
  (length values1 < depth)%nat -> (length values2 < depth)%nat ->
  (length values1 <= avail m1)%nat -> (length values2 <= avail m2)%nat ->
  exists root1 m1' m1'' root2 m2' m2'' out,
    insert_all depth NULL values1 m1 = Done root1 m1' ∧
    insert_all depth NULL values2 m2 = Done root2 m2' ∧
    inorderTraversal depth root1 m1' = Done tt m1'' ∧
    inorderTraversal depth root2 m2' = Done tt m2'' ∧
    stdout m1'' = stdout m1 ++ map visit out ∧
    stdout m2'' = stdout m2 ++ map visit out.
Proof.
  intros Hsame Hd1 Hd2 Hav1 Hav2.
  pose proof (height_from_empty values1) as Hh1.
  pose proof (height_from_empty values2) as Hh2.
  destruct (insert_all_from_empty values1 depth m1 ltac:(lia) Hav1)
    as (root1 & m1' & t1 & F1 & Hrun1 & Ht1 & -> & Hb1 & Hmem1 & Hout1 & _).
  destruct (insert_all_from_empty values2 depth m2 ltac:(lia) Hav2)
    as (root2 & m2' & t2 & F2 & Hrun2 & Ht2 & -> & Hb2 & Hmem2 & Hout2 & _).
  pose proof (inorderTraversal_tree_at _ depth root1 m1' F1 Ht1 ltac:(lia)) as Htr1.
  pose proof (inorderTraversal_tree_at _ depth root2 m2' F2 Ht2 ltac:(lia)) as Htr2.
  assert (Heq : elements (ins_all values1 Leaf) = elements (ins_all values2 Leaf)).
  { apply ascending_unique; [auto with shape | auto with shape |].
    intros x. rewrite Hmem1, Hmem2. apply Hsame. }
  eexists root1, m1', _, root2, m2', _, (elements (ins_all values1 Leaf)).
  split_and!; [done | done | exact Htr1 | exact Htr2 | |]; cbn.
  - by rewrite Hout1.
  - by rewrite Hout2, Heq.
Qed.

Lemma traversal_order_independent_witness :
  (forall x, x ∈ [2; 1; 3; 1] <-> x ∈ [3; 2; 1]) ∧
  (length [2; 1; 3; 1]%Z < 5)%nat ∧ (length [3; 2; 1]%Z < 5)%nat ∧
  (length [2; 1; 3; 1]%Z <= avail (fresh_mem 4))%nat ∧
  (length [3; 2; 1]%Z <= avail (fresh_mem 3))%nat ∧
  exists root1 m1' m1'' root2 m2' m2'' out,
    insert_all 5 NULL [2; 1; 3; 1] (fresh_mem 4) = Done root1 m1' ∧
    insert_all 5 NULL [3; 2; 1] (fresh_mem 3) = Done root2 m2' ∧
    inorderTraversal 5 root1 m1' = Done tt m1'' ∧
    inorderTraversal 5 root2 m2' = Done tt m2'' ∧
    stdout m1'' = stdout (fresh_mem 4) ++ map visit out ∧
    stdout m2'' = stdout (fresh_mem 3) ++ map visit out.
Proof.
  assert (Hsame : forall x, x ∈ [2; 1; 3; 1] <-> x ∈ [3; 2; 1]).
  { intros x. rewrite !elem_of_cons, !elem_of_nil. tauto. }
  split; [exact Hsame|].
  split; [cbn; lia|]. split; [cbn; lia|]. split; [cbn; lia|]. split; [cbn; lia|].
  apply (traversal_order_independent [2; 1; 3; 1] [3; 2; 1] 5 (fresh_mem 4) (fresh_mem 3) Hsame);
    cbn; lia.
Defined.

(** * Further properties of the code *)

(** ** [createNode] when the allocation succeeds *)

(** X1.  With an allocation available, [createNode] returns the address of
    a cell that was not allocated before, which now holds the value and two
    [NULL] links; no other cell changes, one allocation is consumed and
    nothing is printed. *)
Theorem createNode_fresh (v : Z) (m : mem) :
  (0 < avail m)%nat ->
  exists a m',
    createNode v m = Done (Some a) m' ∧
    (a ∉ dom (cells m)) ∧
    cells m' !! a = Some (mkNode v NULL NULL) ∧
    (forall b, b ≠ a -> cells m' !! b = cells m !! b) ∧
    avail m = S (avail m') ∧ stdout m' = stdout m.
Proof.
  intros Hav. destruct (avail m) as [|k] eqn:Hk; [lia|].
  exists (fresh (dom (cells m))). eexists.
  split; [by apply createNode_Done|]. cbn. split_and!; try done.
  - apply is_fresh.
  - apply lookup_insert_eq.
  - intros b Hb. by apply lookup_insert_ne.
Qed.

Lemma createNode_fresh_witness :
  (0 < avail single_mem)%nat ∧
  exists a m',
    createNode 9 single_mem = Done (Some a) m' ∧
    (a ∉ dom (cells single_mem)) ∧
    cells m' !! a = Some (mkNode 9 NULL NULL) ∧
    (forall b, b ≠ a -> cells m' !! b = cells single_mem !! b) ∧
    avail single_mem = S (avail m') ∧ stdout m' = stdout single_mem.
Proof.
  split; [cbn; lia|]. apply (createNode_fresh 9 single_mem). cbn; lia.
Defined.

(** ** [insert] and [search] in an arbitrary memory *)

(** X2.  Whatever the memory holds, a call of [insert] that returns gives
    back a pointer that is not [NULL] and is allocated; it is the argument
    itself when the argument was not [NULL]; no cell is released, at most
    one is allocated, at most one allocation is consumed, and nothing is
    printed. *)
Theorem insert_result_any_memory (depth : nat) (root : ptr) (v : Z) (m : mem)
    (p' : ptr) (m' : mem) :
  insert depth root v m = Done p' m' ->
  (exists a c, p' = Some a ∧ cells m' !! a = Some c) ∧
  (root ≠ NULL -> p' = root) ∧
  (dom (cells m') = dom (cells m) ∨
   exists new, (new ∉ dom (cells m)) ∧ dom (cells m') = {[new]} ∪ dom (cells m)) ∧
  (avail m' <= avail m <= S (avail m'))%nat ∧
  stdout m' = stdout m.
Proof.
  intros Hrun. pose proof (insert_effect _ _ _ _ _ _ Hrun) as [Hout Heff].
  destruct root as [a|].
  - destruct Heff as [-> Heff].
    assert (Ha : exists c, cells m !! a = Some c).
    { destruct depth as [|d]; [done|]. cbn [insert] in Hrun.
      apply bind_inv in Hrun as (c & m0 & Hc & _).
      apply deref_inv in Hc as (? & [= <-] & Hc & _). eauto. }
    destruct Ha as [c Ha].
    destruct Heff as [->|[Hav Hg]].
    + split_and!; [by exists a, c | done | by left | lia | lia | done].
    + destruct (grown_data _ _ _ _ _ _ Hg Ha) as (c' & Hc' & _).
      split_and!; [by exists a, c' | done | | lia | lia | done].
      right.
      destruct Hg as [b cb new _ Hb _ _ Hnew ->|b cb new _ Hb _ _ Hnew ->];
        (exists new; split; [done|]; rewrite !dom_insert_L;
         assert (b ∈ dom (cells m)) by (apply elem_of_dom; eauto); set_solver).
  - destruct Heff as (new & Hnew & -> & Hav & Hcells).
    split_and!; [| done | | lia | lia | done].
    + exists new, (mkNode v NULL NULL). split; [done|].
      rewrite Hcells. apply lookup_insert_eq.
    + right. exists new. split; [done|]. by rewrite Hcells, dom_insert_L.
Qed.

Lemma insert_result_any_memory_witness :
  insert 2 (Some 1%positive) 3 single_mem =
    Done (Some 1%positive)
      (mkMem (<[1%positive := mkNode 5 (Some 2%positive) NULL]>
                (<[2%positive := mkNode 3 NULL NULL]> (cells single_mem))) 0 []) ∧
  exists p' m',
    insert 2 (Some 1%positive) 3 single_mem = Done p' m' ∧
    (exists a c, p' = Some a ∧ cells m' !! a = Some c) ∧
    (Some 1%positive ≠ NULL -> p' = Some 1%positive) ∧
    (dom (cells m') = dom (cells single_mem) ∨
     exists new, (new ∉ dom (cells single_mem)) ∧
                 dom (cells m') = {[new]} ∪ dom (cells single_mem)) ∧
    (avail m' <= avail single_mem <= S (avail m'))%nat ∧
    stdout m' = stdout single_mem.
Proof.
  assert (Hrun : insert 2 (Some 1%positive) 3 single_mem =
    Done (Some 1%positive)
      (mkMem (<[1%positive := mkNode 5 (Some 2%positive) NULL]>
                (<[2%positive := mkNode 3 NULL NULL]> (cells single_mem))) 0 []))
    by (vm_compute; reflexivity).
  split; [exact Hrun|]. eexists _, _. split; [exact Hrun|].
  exact (insert_result_any_memory 2 (Some 1%positive) 3 single_mem _ _ Hrun).
Defined.

(** X3.  Whatever the memory holds, a call of [search] that returns has
    changed nothing, and a result that is not [NULL] is the address of an
    allocated cell holding the value looked for, met on the descent that
    the comparisons with that value prescribe. *)
Theorem search_result_any_memory (depth : nat) (root : ptr) (v : Z) (m : mem)
    (q : ptr) (m' : mem) :
  search depth root v m = Done q m' ->
  m' = m ∧
  forall a, q = Some a ->
    descends (cells m) v root a ∧ exists c, cells m !! a = Some c ∧ data c = v.
Proof.
  revert root. induction depth as [|d IH]; intros root Hrun; [done|].
  destruct root as [r|]; cbn [search] in Hrun.
  2:{ injection Hrun as <- <-. done. }
  apply bind_inv in Hrun as (c & m0 & Hc & Hrun).
  apply deref_inv in Hc as (? & [= <-] & Hc & ->).
  destruct (Z.eqb_spec (data c) v) as [Heq|Hne].
  { injection Hrun as <- <-. split; [done|]. intros a [= <-].
    split; [constructor | eauto]. }
  apply bind_inv in Hrun as (c' & m0 & Hc' & Hrun).
  apply deref_inv in Hc' as (? & [= <-] & Hc' & ->).
  rewrite Hc in Hc'. injection Hc' as <-.
  destruct (Z.ltb_spec v (data c)) as [Hlt|Hge];
    apply IH in Hrun as [-> Hq]; (split; [done|]); intros a Ha;
    destruct (Hq a Ha) as [Hd Hcell]; (split; [|done]).
  - by eapply descends_left.
  - eapply descends_right; eauto. lia.
Qed.

Lemma search_result_any_memory_witness :
  search 1 (Some 1%positive) 5 single_mem = Done (Some 1%positive) single_mem ∧
  single_mem = single_mem ∧
  forall a, Some 1%positive = Some a ->
    descends (cells single_mem) 5 (Some 1%positive) a ∧
    exists c, cells single_mem !! a = Some c ∧ data c = 5.
Proof.
  assert (Hrun : search 1 (Some 1%positive) 5 single_mem =
                   Done (Some 1%positive) single_mem) by (vm_compute; reflexivity).
  split; [exact Hrun|].
  exact (search_result_any_memory 1 (Some 1%positive) 5 single_mem _ _ Hrun).
Defined.

(** ** [insert] on a memory that holds an ordered tree *)

Lemma footprint_elements t : forall h p F a,
  tree_at h p t F -> a ∈ F -> exists c, h !! a = Some c ∧ data c ∈ elements t.
Proof.
  induction t as [|l IHl x r IHr]; intros h p F a Ht Ha.
  - destruct Ht as [_ ->]. set_solver.
  - destruct Ht as (a0 & pl & pr & Fl & Fr & -> & Ha0 & Hl & Hr & _ & _ & _ & ->).
    cbn. apply elem_of_union in Ha as [Ha|Ha]; [apply elem_of_union in Ha as [Ha|Ha]|].
    + apply elem_of_singleton in Ha as ->. eexists. split; [done|]. cbn. set_solver.
    + destruct (IHl _ _ _ _ Hl Ha) as (c & ? & ?). exists c. set_solver.
    + destruct (IHr _ _ _ _ Hr Ha) as (c & ? & ?). exists c. set_solver.
Qed.

Lemma elements_footprint t : forall h p F x,
  tree_at h p t F -> x ∈ elements t -> exists a c, a ∈ F ∧ h !! a = Some c ∧ data c = x.
Proof.
  induction t as [|l IHl y r IHr]; intros h p F x Ht Hx.
  - by apply elem_of_nil in Hx.
  - destruct Ht as (a0 & pl & pr & Fl & Fr & -> & Ha0 & Hl & Hr & _ & _ & _ & ->).
    cbn in Hx. apply elem_of_app in Hx as [Hx|Hx].
    + destruct (IHl _ _ _ _ Hl Hx) as (a & c & ? & ? & ?). exists a, c. set_solver.
    + apply elem_of_cons in Hx as [->|Hx].
      * exists a0, (mkNode y pl pr). set_solver.
      * destruct (IHr _ _ _ _ Hr Hx) as (a & c & ? & ? & ?). exists a, c. set_solver.
Qed.

(** X4.  [insert] keeps the invariant of a tree it is given, wherever that
    tree lies in memory: on a memory holding an ordered tree, with a call
    depth above its height and an allocation available, it returns; the
    memory then holds an ordered tree whose values are the old ones and the
    inserted one; the cells of the old tree are still cells of the new one,
    any further cell was not allocated before, and every cell outside the
    new tree is untouched. *)
Theorem insert_preserves_ordered (t : tree) (depth : nat) (p : ptr) (v : Z)
    (m : mem) (F : gset loc) :
  tree_at (cells m) p t F -> bst t -> (height t < depth)%nat -> (0 < avail m)%nat ->
  exists p' m' t' F',
    insert depth p v m = Done p' m' ∧
    tree_at (cells m') p' t' F' ∧ bst t' ∧ ordered (cells m') p' ∧
    (forall x, x ∈ elements t' <-> x = v ∨ x ∈ elements t) ∧
    F ⊆ F' ∧ (F' ∖ F) ## dom (cells m) ∧
    (forall b, b ∉ F' -> cells m' !! b = cells m !! b).
Proof.
  intros Ht Hb Hd Hav.
  destruct (insert_tree_at t depth p v m F Ht Hd Hav)
    as (p' & m' & F' & Hrun & Ht' & Hsub & Hfresh & Hframe).
  exists p', m', (ins v t), F'. split_and!; try done.
  - auto with shape.
  - intros n c Hreach Hn. eapply tree_at_ordered; eauto with shape.
  - intros x. apply elem_of_elements_ins.
  - intros b Hb1 Hb2. apply elem_of_difference in Hb1 as [Hin Hout].
    apply Hfresh in Hin as [?|?]; done.
Qed.

Lemma insert_preserves_ordered_witness :
  tree_at (cells single_mem) (Some 1%positive) (Br Leaf 5 Leaf) ({[1%positive]} ∪ ∅ ∪ ∅) ∧
  bst (Br Leaf 5 Leaf) ∧ (height (Br Leaf 5 Leaf) < 2)%nat ∧
  (0 < avail single_mem)%nat ∧
  exists p' m' t' F',
    insert 2 (Some 1%positive) 8 single_mem = Done p' m' ∧
    tree_at (cells m') p' t' F' ∧ bst t' ∧ ordered (cells m') p' ∧
    (forall x, x ∈ elements t' <-> x = 8 ∨ x ∈ elements (Br Leaf 5 Leaf)) ∧
    ({[1%positive]} ∪ ∅ ∪ ∅) ⊆ F' ∧
    (F' ∖ ({[1%positive]} ∪ ∅ ∪ ∅)) ## dom (cells single_mem) ∧
    (forall b, b ∉ F' -> cells m' !! b = cells single_mem !! b).
Proof.
  assert (Hb : bst (Br Leaf 5 Leaf)) by (cbn; split_and!; constructor).
  split; [exact single_mem_tree|]. split; [exact Hb|].
  split; [cbn; lia|]. split; [cbn; lia|].
  apply (insert_preserves_ordered (Br Leaf 5 Leaf) 2 (Some 1%positive) 8 single_mem
           ({[1%positive]} ∪ ∅ ∪ ∅) single_mem_tree Hb); cbn; lia.
Defined.

(** A returning [insert] leaves every allocated cell allocated, with its
    value. *)
Lemma insert_keeps_data depth root v m p' m' b c :
  insert depth root v m = Done p' m' -> cells m !! b = Some c ->
  exists c', cells m' !! b = Some c' ∧ data c' = data c.
Proof.
  intros Hrun Hb. pose proof (insert_effect _ _ _ _ _ _ Hrun) as [_ Heff].
  destruct root as [a|].
  - destruct Heff as [_ [->|[_ Hg]]]; [eauto|]. eapply grown_data; eauto.
  - destruct Heff as (new & Hnew & _ & _ & ->).
    assert (b ∈ dom (cells m)) by (apply elem_of_dom; eauto).
    exists c. rewrite lookup_insert_ne by (intros ->; done). done.
Qed.

(** A value the tree does not hold costs exactly one allocation. *)
Lemma insert_absent_allocates (t : tree) (depth : nat) (p : ptr) (v : Z)
    (m : mem) (F : gset loc) :
  tree_at (cells m) p t F -> (height t < depth)%nat -> (0 < avail m)%nat ->
  v ∉ elements t ->
  exists p' m' new,
    insert depth p v m = Done p' m' ∧
    (new ∉ dom (cells m)) ∧
    dom (cells m') = {[new]} ∪ dom (cells m) ∧
    cells m' !! new = Some (mkNode v NULL NULL) ∧
    avail m = S (avail m').
Proof.
  intros Ht Hd Hav Hnew.
  destruct (insert_tree_at t depth p v m F Ht Hd Hav)
    as (p' & m' & F' & Hrun & Ht' & _).
  pose proof (insert_effect _ _ _ _ _ _ Hrun) as [_ Heff].
  destruct p as [a|].
  - destruct Heff as [-> [->|[Hav' Hg]]].
    + exfalso. destruct (tree_at_unique _ _ _ _ _ _ Ht Ht') as [Heq _].
      apply Hnew. rewrite <- Heq. apply elem_of_elements_ins. by left.
    + destruct Hg as [b cb new _ Hb _ _ Hfresh Hcells|b cb new _ Hb _ _ Hfresh Hcells];
        (assert (b ∈ dom (cells m)) by (apply elem_of_dom; eauto);
         exists (Some a), m', new; rewrite Hcells; split_and!;
         [done | done | rewrite !dom_insert_L; set_solver
         | rewrite lookup_insert_ne by (intros ->; done); apply lookup_insert_eq
         | done]).
  - destruct Heff as (new & Hfresh & -> & Hav' & Hcells).
    exists (Some new), m', new. rewrite Hcells. split_and!; try done.
    + by rewrite dom_insert_L.
    + apply lookup_insert_eq.
Qed.

(** X5.  On a memory holding a tree that does not contain the value, with
    an allocation available, [insert] allocates exactly one cell: its
    address was not in use, it holds the value and two [NULL] links, the
    set of allocated addresses grows by that address alone, and one
    allocation is consumed. *)
Theorem insert_new_value_allocates (t : tree) (depth : nat) (p : ptr) (v : Z)
    (m : mem) (F : gset loc) :
  tree_at (cells m) p t F -> (height t < depth)%nat -> (0 < avail m)%nat ->
  v ∉ elements t ->
  exists p' m' new,
    insert depth p v m = Done p' m' ∧
    (new ∉ dom (cells m)) ∧
    dom (cells m') = {[new]} ∪ dom (cells m) ∧
    cells m' !! new = Some (mkNode v NULL NULL) ∧
    avail m = S (avail m').
Proof. apply insert_absent_allocates. Qed.

Lemma not_elem_of_single (x y : Z) : x ≠ y -> x ∉ [y].
Proof.
  intros Hne Hin. apply elem_of_cons in Hin as [?|Hin]; [done|].
  by apply elem_of_nil in Hin.
Defined.

Lemma insert_new_value_allocates_witness :
  tree_at (cells single_mem) (Some 1%positive) (Br Leaf 5 Leaf) ({[1%positive]} ∪ ∅ ∪ ∅) ∧
  (height (Br Leaf 5 Leaf) < 2)%nat ∧ (0 < avail single_mem)%nat ∧
  (3 ∉ elements (Br Leaf 5 Leaf)) ∧
  exists p' m' new,
    insert 2 (Some 1%positive) 3 single_mem = Done p' m' ∧
    (new ∉ dom (cells single_mem)) ∧
    dom (cells m') = {[new]} ∪ dom (cells single_mem) ∧
    cells m' !! new = Some (mkNode 3 NULL NULL) ∧
    avail single_mem = S (avail m').
Proof.
  assert (Hnew : 3 ∉ elements (Br Leaf 5 Leaf)) by (apply not_elem_of_single; lia).
  split; [exact single_mem_tree|]. split; [cbn; lia|]. split; [cbn; lia|].
  split; [exact Hnew|].
  apply (insert_new_value_allocates (Br Leaf 5 Leaf) 2 (Some 1%positive) 3 single_mem
           ({[1%positive]} ∪ ∅ ∪ ∅) single_mem_tree); [cbn; lia | cbn; lia | exact Hnew].
Defined.

(** Without an allocation, a value the tree does not hold cannot be
    inserted. *)
Lemma insert_absent_starved (t : tree) (depth : nat) (p : ptr) (v : Z)
    (m : mem) (F : gset loc) :
  tree_at (cells m) p t F -> (height t < depth)%nat -> avail m = O ->
  v ∉ elements t ->
  insert depth p v m = Fault.
Proof.
  revert depth p F.
  induction t as [|l IHl x r IHr]; intros depth p F Ht Hd Hav Hnew.
  - destruct Ht as [-> ->]. positive_depth depth as d by Hd.
    by apply createNode_Fault.
  - destruct Ht as (a & pl & pr & Fl & Fr & -> & Ha & Hl & Hr & _).
    positive_depth depth as d by Hd. cbn in Hnew.
    cbn [insert]. unfold_M. rewrite (deref_Done _ _ _ Ha). cbn [data left right].
    destruct (Z.ltb_spec v x) as [Hlt|Hge].
    + rewrite (IHl d pl Fl Hl); [done | lia | done | set_solver].
    + rewrite (deref_Done _ _ _ Ha), Z.gtb_ltb. cbn [data left right].
      destruct (Z.ltb_spec x v) as [Hgt|Hle].
      * rewrite (IHr d pr Fr Hr); [done | lia | done | set_solver].
      * exfalso. apply Hnew. assert (v = x) as -> by lia. set_solver.
Qed.

(** X6.  On a memory holding a tree that does not contain the value, with
    no allocation left, [insert] ends in undefined behaviour: the descent
    reaches an absent position and [createNode] writes through the [NULL]
    that [malloc] returned.  The failure is not reported to the caller. *)
Theorem insert_new_value_without_memory (t : tree) (depth : nat) (p : ptr) (v : Z)
    (m : mem) (F : gset loc) :
  tree_at (cells m) p t F -> (height t < depth)%nat -> avail m = O ->
  v ∉ elements t ->
  insert depth p v m = Fault.
Proof. apply insert_absent_starved. Qed.

Lemma insert_new_value_without_memory_witness :
  tree_at (cells starved_mem) (Some 1%positive)
    (Br Leaf 5 Leaf) ({[1%positive]} ∪ ∅ ∪ ∅) ∧
  (height (Br Leaf 5 Leaf) < 2)%nat ∧
  avail starved_mem = O ∧
  (3 ∉ elements (Br Leaf 5 Leaf)) ∧
  insert 2 (Some 1%positive) 3 starved_mem = Fault.
Proof.
  assert (Hnew : 3 ∉ elements (Br Leaf 5 Leaf)) by (apply not_elem_of_single; lia).
  split; [exact single_mem_tree|]. split; [cbn; lia|]. split; [reflexivity|].
  split; [exact Hnew|].
  apply (insert_new_value_without_memory (Br Leaf 5 Leaf) 2 (Some 1%positive) 3
           starved_mem
           ({[1%positive]} ∪ ∅ ∪ ∅) single_mem_tree);
    [cbn; lia | reflexivity | exact Hnew].
Defined.

(** In an ordered tree a value sits in one cell only. *)
Lemma value_cell_unique t : forall h p F a b ca cb,
  tree_at h p t F -> bst t -> a ∈ F -> b ∈ F ->
  h !! a = Some ca -> h !! b = Some cb -> data ca = data cb -> a = b.
Proof.
  induction t as [|l IHl x r IHr]; intros h p F a b ca cb Ht Hb Ha Hbin Hca Hcb Heq.
  - destruct Ht as [_ ->]. set_solver.
  - destruct Ht as (a0 & pl & pr & Fl & Fr & -> & Ha0 & Hl & Hr & _ & _ & _ & ->).
    destruct Hb as (Hlo & Hhi & Hbl & Hbr). rewrite Forall_forall in Hlo, Hhi.
    assert (Hclass : forall y cy, y ∈ {[a0]} ∪ Fl ∪ Fr -> h !! y = Some cy ->
              (y = a0 ∧ data cy = x) ∨ (y ∈ Fl ∧ data cy < x) ∨ (y ∈ Fr ∧ x < data cy)).
    { intros y cy Hy Hcy.
      apply elem_of_union in Hy as [Hy|Hy]; [apply elem_of_union in Hy as [Hy|Hy]|].
      - apply elem_of_singleton in Hy as ->. left. split; [done|].
        rewrite Ha0 in Hcy. by injection Hcy as <-.
      - right; left. split; [done|].
        destruct (footprint_elements _ _ _ _ _ Hl Hy) as (c & Hc & Hin).
        rewrite Hcy in Hc. injection Hc as <-. auto.
      - right; right. split; [done|].
        destruct (footprint_elements _ _ _ _ _ Hr Hy) as (c & Hc & Hin).
        rewrite Hcy in Hc. injection Hc as <-. auto. }
    destruct (Hclass a ca Ha Hca) as [[-> ?]|[[? ?]|[? ?]]];
      destruct (Hclass b cb Hbin Hcb) as [[-> ?]|[[? ?]|[? ?]]];
      try done; try lia; eauto.
Qed.

(** X7.  Insert and look up, on a memory holding an ordered tree with an
    allocation available: after [insert] of a value, [search] for that
    value returns the address of a cell holding it; [search] for any other
    value returns exactly what it returned before the insert, the same
    address or [NULL]. *)
Theorem search_after_insert (t : tree) (depth : nat) (p : ptr) (v w : Z)
    (m : mem) (F : gset loc) :
  tree_at (cells m) p t F -> bst t -> (height t < depth)%nat -> (0 < avail m)%nat ->
  exists p' m' q,
    insert depth p v m = Done p' m' ∧
    search (S depth) p' w m' = Done q m' ∧
    (w = v -> exists a c, q = Some a ∧ cells m' !! a = Some c ∧ data c = v) ∧
    (w ≠ v -> search depth p w m = Done q m).
Proof.
  intros Ht Hb Hd Hav.
  destruct (insert_tree_at t depth p v m F Ht Hd Hav)
    as (p' & m' & F' & Hrun & Ht' & Hsub & _).
  pose proof (height_ins v t) as Hh.
  assert (Hb' : bst (ins v t)) by auto with shape.
  destruct (search_tree_at _ (S depth) p' w m' F' Ht' Hb' ltac:(lia))
    as (q & Hq & Hyes & Hno).
  exists p', m', q. split_and!; [done | done | |].
  - intros ->. destruct Hyes as (a & c & -> & _ & ? & ?).
    { apply elem_of_elements_ins. by left. }
    by exists a, c.
  - intros Hne.
    destruct (search_tree_at _ depth p w m F Ht Hb Hd) as (q0 & Hq0 & Hyes0 & Hno0).
    rewrite Hq0. f_equal.
    destruct (decide (w ∈ elements t)) as [Hin|Hnin].
    + destruct (Hyes0 Hin) as (a0 & c0 & -> & Ha0 & Hc0 & Hd0).
      destruct Hyes as (a1 & c1 & -> & Ha1 & Hc1 & Hd1).
      { apply elem_of_elements_ins. by right. }
      destruct (insert_keeps_data _ _ _ _ _ _ _ _ Hrun Hc0) as (c0' & Hc0' & Hd0').
      f_equal. eapply (value_cell_unique _ _ _ _ a0 a1 c0' c1 Ht' Hb'); eauto.
      congruence.
    + rewrite (Hno0 Hnin). symmetry. apply Hno.
      rewrite elem_of_elements_ins. tauto.
Qed.

Lemma search_after_insert_witness :
  tree_at (cells single_mem) (Some 1%positive) (Br Leaf 5 Leaf) ({[1%positive]} ∪ ∅ ∪ ∅) ∧
  bst (Br Leaf 5 Leaf) ∧ (height (Br Leaf 5 Leaf) < 2)%nat ∧
  (0 < avail single_mem)%nat ∧
  exists p' m' q,
    insert 2 (Some 1%positive) 3 single_mem = Done p' m' ∧
    search 3 p' 5 m' = Done q m' ∧
    (5 = 3 -> exists a c, q = Some a ∧ cells m' !! a = Some c ∧ data c = 3) ∧
    (5 ≠ 3 -> search 2 (Some 1%positive) 5 single_mem = Done q single_mem).
Proof.
  assert (Hb : bst (Br Leaf 5 Leaf)) by (cbn; split_and!; constructor).
  split; [exact single_mem_tree|]. split; [exact Hb|].
  split; [cbn; lia|]. split; [cbn; lia|].
  apply (search_after_insert (Br Leaf 5 Leaf) 2 (Some 1%positive) 3 5 single_mem
           ({[1%positive]} ∪ ∅ ∪ ∅) single_mem_tree Hb); cbn; lia.
Defined.

(** ** [inorderTraversal] on any tree *)

Lemma tree_at_size t : forall h p F, tree_at h p t F -> size F = length (elements t).
Proof.
  induction t as [|l IHl x r IHr]; intros h p F Ht.
  - destruct Ht as [_ ->]. apply size_empty.
  - destruct Ht as (a & pl & pr & Fl & Fr & -> & Ha & Hl & Hr & ? & ? & ? & ->).
    apply IHl in Hl. apply IHr in Hr. cbn.
    rewrite <- assoc_L by apply _.
    rewrite size_union by set_solver. rewrite size_singleton.
    rewrite size_union by done. rewrite length_app. cbn. lia.
Qed.

(** X8.  On a memory holding a tree, ordered or not, with a call depth
    above its height, [inorderTraversal] returns having printed one value
    per cell of the tree, as many values as the tree has cells, each the
    value of one of its cells, in the order left subtree, node, right
    subtree; it changes no cell and consumes no allocation; and when the
    tree is ordered the printed values are strictly ascending. *)
Theorem traversal_visits_every_cell (t : tree) (depth : nat) (p : ptr) (m : mem)
    (F : gset loc) :
  tree_at (cells m) p t F -> (height t < depth)%nat ->
  exists m',
    inorderTraversal depth p m = Done tt m' ∧
    cells m' = cells m ∧ avail m' = avail m ∧
    stdout m' = stdout m ++ map visit (elements t) ∧
    length (elements t) = size F ∧
    (forall x, x ∈ elements t <->
       exists a c, a ∈ F ∧ cells m !! a = Some c ∧ data c = x) ∧
    (bst t -> StronglySorted Z.lt (elements t)).
Proof.
  intros Ht Hd. eexists. split; [by eapply inorderTraversal_tree_at|].
  cbn. split_and!; try done.
  - symmetry. by eapply tree_at_size.
  - intros x. split.
    + intros Hx. by eapply elements_footprint.
    + intros (a & c & Ha & Hc & <-).
      destruct (footprint_elements _ _ _ _ _ Ht Ha) as (c' & Hc' & Hin). congruence.
  - auto with shape.
Qed.

Lemma traversal_visits_every_cell_witness :
  tree_at (cells single_mem) (Some 1%positive) (Br Leaf 5 Leaf) ({[1%positive]} ∪ ∅ ∪ ∅) ∧
  (height (Br Leaf 5 Leaf) < 2)%nat ∧
  exists m',
    inorderTraversal 2 (Some 1%positive) single_mem = Done tt m' ∧
    cells m' = cells single_mem ∧ avail m' = avail single_mem ∧
    stdout m' = stdout single_mem ++ map visit (elements (Br Leaf 5 Leaf)) ∧
    length (elements (Br Leaf 5 Leaf)) = size ({[1%positive]} ∪ ∅ ∪ ∅ : gset loc) ∧
    (forall x, x ∈ elements (Br Leaf 5 Leaf) <->
       exists a c, a ∈ ({[1%positive]} ∪ ∅ ∪ ∅ : gset loc) ∧
                   cells single_mem !! a = Some c ∧ data c = x) ∧
    (bst (Br Leaf 5 Leaf) -> StronglySorted Z.lt (elements (Br Leaf 5 Leaf))).
Proof.
  split; [exact single_mem_tree|]. split; [cbn; lia|].
  apply (traversal_visits_every_cell (Br Leaf 5 Leaf) 2 (Some 1%positive) single_mem
           ({[1%positive]} ∪ ∅ ∪ ∅) single_mem_tree); cbn; lia.
Defined.

(** ** [freeTree] *)

Lemma free_inv p m u m' :
  free p m = Done u m' ->
  (p = NULL ∧ m' = m) ∨
  exists a c, p = Some a ∧ cells m !! a = Some c ∧
              m' = with_cells m (delete a (cells m)).
Proof.
  unfold free. destruct p as [a|]; [|intros [= _ <-]; by left].
  destruct (cells m !! a) eqn:E; [|done]. intros [= _ <-]. right. eauto.
Qed.

(** In any memory, a returning [freeTree] only releases cells. *)
Lemma freeTree_only_releases depth : forall root m u m',
  freeTree depth root m = Done u m' ->
  (forall x cx, cells m' !! x = Some cx -> cells m !! x = Some cx) ∧
  avail m' = avail m ∧ stdout m' = stdout m.
Proof.
  induction depth as [|d IH]; intros root m u m' Hrun; [done|].
  destruct root as [a|]; cbn [freeTree] in Hrun.
  2:{ injection Hrun as _ <-. done. }
  apply bind_inv in Hrun as (c & m0 & Hc & Hrun).
  apply deref_inv in Hc as (? & [= <-] & Hc & ->).
  apply bind_inv in Hrun as (u1 & m1 & H1 & Hrun).
  apply bind_inv in Hrun as (c' & m0 & Hc' & Hrun).
  apply deref_inv in Hc' as (? & [= <-] & Hc' & ->).
  apply bind_inv in Hrun as (u2 & m2 & H2 & Hrun).
  apply IH in H1 as (Hsub1 & Hav1 & Hout1).
  apply IH in H2 as (Hsub2 & Hav2 & Hout2).
  apply free_inv in Hrun as [[? _]|(? & c2 & [= <-] & Hc2 & ->)]; [done|].
  cbn. split_and!; [|congruence|congruence].
  intros x cx Hx. apply lookup_delete_Some in Hx as [_ Hx]. auto.
Qed.

(** In any memory, a returning [freeTree] has released the cell of its
    argument. *)
Lemma freeTree_root_released depth a m u m' :
  freeTree depth (Some a) m = Done u m' -> cells m' !! a = None.
Proof.
  destruct depth as [|d]; [done|]. cbn [freeTree]. intros Hrun.
  apply bind_inv in Hrun as (c & m0 & _ & Hrun).
  apply bind_inv in Hrun as (u1 & m1 & _ & Hrun).
  apply bind_inv in Hrun as (c' & m2 & _ & Hrun).
  apply bind_inv in Hrun as (u2 & m3 & _ & Hrun).
  apply free_inv in Hrun as [[? _]|(? & c2 & [= <-] & Hc2 & ->)]; [done|].
  cbn. apply lookup_delete_eq.
Qed.

(** X9.  On a memory holding a tree, with a call depth above its height,
    [freeTree] returns having released exactly the cells of that tree:
    the allocated addresses are the former ones less the tree's, every
    other cell is untouched, nothing is printed and no allocation is
    consumed. *)
Theorem freeTree_releases_the_tree (t : tree) (depth : nat) (p : ptr) (m : mem)
    (F : gset loc) :
  tree_at (cells m) p t F -> (height t < depth)%nat ->
  exists m',
    freeTree depth p m = Done tt m' ∧
    dom (cells m') = dom (cells m) ∖ F ∧
    (forall b, b ∉ F -> cells m' !! b = cells m !! b) ∧
    avail m' = avail m ∧ stdout m' = stdout m.
Proof. apply freeTree_tree_at. Qed.

Lemma freeTree_releases_the_tree_witness :
  tree_at (cells single_mem) (Some 1%positive) (Br Leaf 5 Leaf) ({[1%positive]} ∪ ∅ ∪ ∅) ∧
  (height (Br Leaf 5 Leaf) < 2)%nat ∧
  exists m',
    freeTree 2 (Some 1%positive) single_mem = Done tt m' ∧
    dom (cells m') = dom (cells single_mem) ∖ ({[1%positive]} ∪ ∅ ∪ ∅) ∧
    (forall b, b ∉ ({[1%positive]} ∪ ∅ ∪ ∅ : gset loc) ->
       cells m' !! b = cells single_mem !! b) ∧
    avail m' = avail single_mem ∧ stdout m' = stdout single_mem.
Proof.
  split; [exact single_mem_tree|]. split; [cbn; lia|].
  apply (freeTree_releases_the_tree (Br Leaf 5 Leaf) 2 (Some 1%positive) single_mem
           ({[1%positive]} ∪ ∅ ∪ ∅) single_mem_tree); cbn; lia.
Defined.



(** X11.  [freeTree] never returns on a cell whose two links point to the
    same cell: once the first walk has released the shared cell the
    second walk goes through a dangling pointer. *)
Theorem freeTree_shared_child (depth : nat) (a b : loc) (c : Node) (m m' : mem) :
  cells m !! a = Some c -> left c = Some b -> right c = Some b ->
  freeTree depth (Some a) m ≠ Done tt m'.
Proof.
  intros Ha Hl Hr Hrun. destruct depth as [|d]; [done|].
  cbn [freeTree] in Hrun.
  apply bind_inv in Hrun as (c0 & m0 & Hc & Hrun).
  apply deref_inv in Hc as (? & [= <-] & Hc & ->).
  rewrite Ha in Hc. injection Hc as <-.
  apply bind_inv in Hrun as (u1 & m1 & H1 & Hrun).
  apply bind_inv in Hrun as (c' & m0 & Hc' & Hrun).
  apply deref_inv in Hc' as (? & [= <-] & Hc' & ->).
  apply bind_inv in Hrun as (u2 & m2 & H2 & _).
  rewrite Hl in H1.
  pose proof (freeTree_root_released _ _ _ _ _ H1) as Hgone.
  destruct (freeTree_only_releases _ _ _ _ _ H1) as (Hsub & _).
  apply Hsub in Hc'. rewrite Ha in Hc'. injection Hc' as <-.
  rewrite Hr in H2. destruct d as [|d']; [done|].
  cbn [freeTree] in H2. apply bind_inv in H2 as (cb & m0 & Hcb & _).
  apply deref_inv in Hcb as (? & [= <-] & Hcb & _). congruence.
Qed.

Lemma freeTree_shared_child_witness :
  cells shared_mem !! 1%positive = Some (mkNode 5 (Some 2%positive) (Some 2%positive)) ∧
  left (mkNode 5 (Some 2%positive) (Some 2%positive)) = Some 2%positive ∧
  right (mkNode 5 (Some 2%positive) (Some 2%positive)) = Some 2%positive ∧
  freeTree 3 (Some 1%positive) shared_mem ≠ Done tt (fresh_mem 0).
Proof.
  split; [reflexivity|]. split; [reflexivity|]. split; [reflexivity|].
  apply (freeTree_shared_child 3 1%positive 2%positive
           (mkNode 5 (Some 2%positive) (Some 2%positive)) shared_mem (fresh_mem 0));
    reflexivity.
Defined.

(** On that memory the second walk faults. *)
Example freeTree_shared_run : freeTree 3 (Some 1%positive) shared_mem = Fault.
Proof. vm_compute. reflexivity. Qed.

(** ** Building a tree and releasing it *)

(** Distinct values that the tree does not hold cost one allocation each;
    with fewer allocations than values the loop ends in undefined
    behaviour. *)
Lemma insert_all_distinct vs : forall t depth p m F,
  tree_at (cells m) p t F -> NoDup vs -> (forall v, v ∈ vs -> v ∉ elements t) ->
  (height (ins_all vs t) < depth)%nat ->
  ((length vs <= avail m)%nat ->
     exists p' m', insert_all depth p vs m = Done p' m' ∧
                   avail m = (avail m' + length vs)%nat) ∧
  ((avail m < length vs)%nat -> insert_all depth p vs m = Fault).
Proof.
  induction vs as [|v vs IH]; intros t depth p m F Ht Hnd Hnew Hd.
  - split; [|cbn; lia]. intros _. exists p, m. cbn. split; [done|lia].
  - apply NoDup_cons in Hnd as [Hv Hnd]. cbn in Hd.
    pose proof (height_ins_all_mono vs (ins v t)) as Hm1.
    pose proof (height_ins_mono v t) as Hm2.
    assert (Hvt : v ∉ elements t) by (apply Hnew; left).
    cbn [insert_all length]. unfold mbind, M_bind.
    destruct (avail m) as [|k] eqn:Hk.
    { rewrite (insert_absent_starved t depth p v m F Ht ltac:(lia) Hk Hvt).
      split; [lia | done]. }
    destruct (insert_tree_at t depth p v m F Ht ltac:(lia) ltac:(lia))
      as (p1 & m1 & F1 & Hrun & Ht1 & _).
    destruct (insert_absent_allocates t depth p v m F Ht ltac:(lia) ltac:(lia) Hvt)
      as (p1' & m1' & new & Hrun' & _ & _ & _ & Hav1).
    rewrite Hrun in Hrun'. injection Hrun' as <- <-. rewrite Hrun.
    assert (Hnew1 : forall w, w ∈ vs -> w ∉ elements (ins v t)).
    { intros w Hw Hin. apply elem_of_elements_ins in Hin as [->|Hin]; [done|].
      eapply Hnew; [right; exact Hw | done]. }
    destruct (IH (ins v t) depth p1 m1 F1 Ht1 Hnd Hnew1 Hd) as [Hyes Hno].
    split.
    + intros Hlen. destruct Hyes as (p' & m' & Hrun2 & Hav2); [lia|].
      exists p', m'. split; [done|]. lia.
    + intros Hlen. apply Hno. lia.
Qed.

(** X12.  Building a tree from the empty tree and releasing it leaks
    nothing: for any sequence of values, with a call depth above its
    length and one allocation per value, the inserts return a root,
    [freeTree] on that root returns, and the allocated cells are then
    exactly the cells that were allocated before the first insert, with
    their contents; nothing was printed. *)
Theorem build_then_free_restores_memory (values : list Z) (depth : nat) (m : mem) :
  (length values < depth)%nat -> (length values <= avail m)%nat ->
  exists root m1 m2,
    insert_all depth NULL values m = Done root m1 ∧
    freeTree depth root m1 = Done tt m2 ∧
    cells m2 = cells m ∧ stdout m2 = stdout m.
Proof.
  intros Hd Hav. pose proof (height_from_empty values) as Hh.
  destruct (insert_all_from_empty values depth m ltac:(lia) Hav)
    as (root & m1 & t & F & Hrun & Ht & -> & _ & _ & Hout & _ & Hfresh & Hframe).
  destruct (freeTree_tree_at _ depth root m1 F Ht ltac:(lia))
    as (m2 & Hfree & Hdom & Hfr & _ & Hout2).
  exists root, m1, m2. split_and!; [done | done | | congruence].
  apply map_eq. intros x. destruct (decide (x ∈ F)) as [Hx|Hx].
  - assert (Hn2 : x ∉ dom (cells m2)) by (rewrite Hdom; set_solver).
    assert (Hn : x ∉ dom (cells m)) by set_solver.
    apply not_elem_of_dom in Hn2, Hn. congruence.
  - rewrite Hfr by done. by apply Hframe.
Qed.

Lemma build_then_free_restores_memory_witness :
  (length [4; 2; 6; 2]%Z < 5)%nat ∧ (length [4; 2; 6; 2]%Z <= avail (fresh_mem 4))%nat ∧
  exists root m1 m2,
    insert_all 5 NULL [4; 2; 6; 2] (fresh_mem 4) = Done root m1 ∧
    freeTree 5 root m1 = Done tt m2 ∧
    cells m2 = cells (fresh_mem 4) ∧ stdout m2 = stdout (fresh_mem 4).
Proof.
  split; [cbn; lia|]. split; [cbn; lia|].
  apply (build_then_free_restores_memory [4; 2; 6; 2] 5 (fresh_mem 4)); cbn; lia.
Defined.

(** X13.  A sequence of distinct values inserted from the empty tree uses
    exactly one allocation per value when that many are available, and
    ends in undefined behaviour when fewer are: the loop cannot complete on
    a short allocator, and the failure is never reported. *)
Theorem insert_all_allocation_count (values : list Z) (depth : nat) (m : mem) :
  NoDup values -> (length values < depth)%nat ->
  ((length values <= avail m)%nat ->
     exists root m', insert_all depth NULL values m = Done root m' ∧
                     avail m = (avail m' + length values)%nat) ∧
  ((avail m < length values)%nat -> insert_all depth NULL values m = Fault).
Proof.
  intros Hnd Hd. pose proof (height_from_empty values) as Hh.
  apply (insert_all_distinct values Leaf depth NULL m ∅ (tree_at_empty _) Hnd);
    [|lia].
  intros v _ Hin. by apply elem_of_nil in Hin.
Qed.

Lemma NoDup_3_1_2 : NoDup [3; 1; 2].
Proof.
  repeat (apply NoDup_cons; split;
          [rewrite ?elem_of_cons, elem_of_nil; lia|]).
  apply NoDup_nil_2.
Defined.

Lemma insert_all_allocation_count_witness :
  NoDup [3; 1; 2] ∧ (length [3; 1; 2]%Z < 4)%nat ∧
  ((length [3; 1; 2]%Z <= avail (fresh_mem 2))%nat ->
     exists root m', insert_all 4 NULL [3; 1; 2] (fresh_mem 2) = Done root m' ∧
                     avail (fresh_mem 2) = (avail m' + length [3; 1; 2]%Z)%nat) ∧
  ((avail (fresh_mem 2) < length [3; 1; 2]%Z)%nat ->
     insert_all 4 NULL [3; 1; 2] (fresh_mem 2) = Fault).
Proof.
  split; [exact NoDup_3_1_2|]. split; [cbn; lia|].
  apply (insert_all_allocation_count [3; 1; 2] 4 (fresh_mem 2) NoDup_3_1_2).
  cbn; lia.
Defined.

(** ** [main] *)

(** In any memory, [main] behaves as if it had stored the result of each
    [insert]: after the first insert the root is not [NULL], and the six
    calls whose result is dropped return the root they were given. *)
Lemma main_reattaching depth m :
  main depth m =
    (root ← insert_all depth NULL [50; 30; 70; 20; 40; 60; 80];
     printf "BST in-order traversal: " [];;
     inorderTraversal depth root;;
     printf "\n" [];;
     result ← search depth root 40;
     (match result with
      | Some _ => printf "Value %d found in the BST.\n" [40]
      | None => printf "Value %d not found in the BST.\n" [40]
      end);;
     freeTree depth root;;
     mret 0) m.
Proof.
  unfold main. cbn [insert_all]. unfold mbind, M_bind.
  destruct (insert depth NULL 50 m) as [r1 m1| |] eqn:E1; [|done|done].
  pose proof (insert_effect _ _ _ _ _ _ E1) as [_ (a & _ & -> & _)].
  destruct (insert depth (Some a) 30 m1) as [r2 m2| |] eqn:E2; [|done|done].
  pose proof (insert_effect _ _ _ _ _ _ E2) as [_ [-> _]].
  destruct (insert depth (Some a) 70 m2) as [r3 m3| |] eqn:E3; [|done|done].
  pose proof (insert_effect _ _ _ _ _ _ E3) as [_ [-> _]].
  destruct (insert depth (Some a) 20 m3) as [r4 m4| |] eqn:E4; [|done|done].
  pose proof (insert_effect _ _ _ _ _ _ E4) as [_ [-> _]].
  destruct (insert depth (Some a) 40 m4) as [r5 m5| |] eqn:E5; [|done|done].
  pose proof (insert_effect _ _ _ _ _ _ E5) as [_ [-> _]].
  destruct (insert depth (Some a) 60 m5) as [r6 m6| |] eqn:E6; [|done|done].
  pose proof (insert_effect _ _ _ _ _ _ E6) as [_ [-> _]].
  destruct (insert depth (Some a) 80 m6) as [r7 m7| |] eqn:E7; [|done|done].
  pose proof (insert_effect _ _ _ _ _ _ E7) as [_ [-> _]].
  done.
Qed.

Lemma NoDup_main_values : NoDup [50; 30; 70; 20; 40; 60; 80].
Proof.
  repeat (apply NoDup_cons; split;
          [rewrite ?elem_of_cons, elem_of_nil; lia|]).
  apply NoDup_nil_2.
Qed.

(** X14.  [main] leaks nothing and uses exactly seven allocations: on any
    memory with at least seven allocations to come, with a call depth of
    four or more, it returns 0, the allocated cells are exactly those
    allocated before the call, with their contents, and seven allocations
    have been consumed. *)
Theorem main_releases_everything (depth : nat) (m : mem) :
  (3 < depth)%nat -> (7 <= avail m)%nat ->
  exists m',
    main depth m = Done 0 m' ∧
    cells m' = cells m ∧
    avail m = (avail m' + 7)%nat ∧
    stdout m' = stdout m ++ main_output.
Proof.
  intros Hd Hav.
  assert (Hh : (height (ins_all [50; 30; 70; 20; 40; 60; 80]%Z Leaf) < depth)%nat)
    by (cbn; lia).
  destruct (insert_all_from_empty [50; 30; 70; 20; 40; 60; 80] depth m Hh)
    as (root & m1 & t & F & Hrun & Ht & -> & Hb & Hmem & Hout & _ & Hfresh & Hframe);
    [cbn; lia|].
  destruct (insert_all_distinct [50; 30; 70; 20; 40; 60; 80] Leaf depth NULL m ∅
              (tree_at_empty _) NoDup_main_values) as [Hcount _]; [|done|].
  { intros v _ Hin. by apply elem_of_nil in Hin. }
  destruct Hcount as (root' & m1' & Hrun' & Hav1); [cbn; lia|].
  rewrite Hrun in Hrun'. injection Hrun' as <- <-. cbn [length] in Hav1.
  rewrite main_reattaching. unfold mbind, M_bind. rewrite Hrun.
  unfold printf. cbv beta iota.
  set (m2 := mkMem (cells m1) (avail m1) _).
  rewrite (inorderTraversal_tree_at _ depth root m2 F Ht Hh).
  cbn [cells avail stdout m2].
  set (m3 := mkMem (cells m1) (avail m1) _).
  destruct (search_tree_at _ depth root 40 m3 F Ht Hb Hh) as (q & Hq & Hyes & _).
  rewrite Hq.
  destruct Hyes as (b & cb & -> & _); [apply Hmem; set_solver|].
  cbn [cells avail stdout m3].
  set (m4 := mkMem (cells m1) (avail m1) _).
  destruct (freeTree_tree_at _ depth root m4 F Ht Hh)
    as (m5 & -> & Hdom & Hfr & Hav5 & Hout5).
  exists m5. split_and!; [done | | |].
  - apply map_eq. intros x. destruct (decide (x ∈ F)) as [Hx|Hx].
    + assert (Hn5 : x ∉ dom (cells m5)) by (rewrite Hdom; set_solver).
      assert (Hn : x ∉ dom (cells m)) by set_solver.
      apply not_elem_of_dom in Hn5, Hn. congruence.
    + rewrite Hfr by done. cbn. by apply Hframe.
  - rewrite Hav5. cbn [avail m4]. lia.
  - rewrite Hout5. cbn [stdout m4 m3 m2]. rewrite Hout.
    unfold main_output. by rewrite <- !app_assoc.
Qed.

Lemma main_releases_everything_witness :
  (3 < 4)%nat ∧ (7 <= avail (mkMem (cells single_mem) 9 []))%nat ∧
  exists m',
    main 4 (mkMem (cells single_mem) 9 []) = Done 0 m' ∧
    cells m' = cells (mkMem (cells single_mem) 9 []) ∧
    avail (mkMem (cells single_mem) 9 []) = (avail m' + 7)%nat ∧
    stdout m' = stdout (mkMem (cells single_mem) 9 []) ++ main_output.
Proof.
  split; [lia|]. split; [cbn; lia|].
  apply (main_releases_everything 4 (mkMem (cells single_mem) 9 [])); cbn; lia.
Defined.

(** X15.  [main] does not survive a short allocator: on any memory with
    fewer than seven allocations to come, with a call depth of four or
    more, it ends in undefined behaviour, in the [createNode] of the first
    value for which no allocation is left; it neither returns nor
    reports the failure. *)
Theorem main_short_of_memory (depth : nat) (m : mem) :
  (3 < depth)%nat -> (avail m < 7)%nat -> main depth m = Fault.
Proof.
  intros Hd Hav.
  destruct (insert_all_distinct [50; 30; 70; 20; 40; 60; 80] Leaf depth NULL m ∅
              (tree_at_empty _) NoDup_main_values) as [_ Hstarved].
  { intros v _ Hin. by apply elem_of_nil in Hin. }
  { cbn; lia. }
  rewrite main_reattaching. unfold mbind, M_bind.
  by rewrite Hstarved by (cbn; lia).
Qed.

Lemma main_short_of_memory_witness :
  (3 < 5)%nat ∧ (avail single_mem < 7)%nat ∧ main 5 single_mem = Fault.
Proof.
  split; [lia|]. split; [cbn; lia|].
  apply (main_short_of_memory 5 single_mem); cbn; lia.
Defined.

(** ** [search] on any ordered tree *)

(** X16.  On a memory holding an ordered tree, wherever it lies and
    however it was built, with a call depth above its height, [search]
    returns without changing anything: for a value of the tree, the address
    of a cell of that tree holding the value; for any other value,
    [NULL]. *)
Theorem search_in_ordered_tree (t : tree) (depth : nat) (p : ptr) (v : Z)
    (m : mem) (F : gset loc) :
  tree_at (cells m) p t F -> bst t -> (height t < depth)%nat ->
  exists q,
    search depth p v m = Done q m ∧
    (v ∈ elements t ->
       exists a c, q = Some a ∧ a ∈ F ∧ cells m !! a = Some c ∧ data c = v) ∧
    (v ∉ elements t -> q = NULL).
Proof. apply search_tree_at. Qed.

Lemma search_in_ordered_tree_witness :
  tree_at (cells single_mem) (Some 1%positive) (Br Leaf 5 Leaf) ({[1%positive]} ∪ ∅ ∪ ∅) ∧
  bst (Br Leaf 5 Leaf) ∧ (height (Br Leaf 5 Leaf) < 2)%nat ∧
  exists q,
    search 2 (Some 1%positive) 5 single_mem = Done q single_mem ∧
    (5 ∈ elements (Br Leaf 5 Leaf) ->
       exists a c, q = Some a ∧ a ∈ ({[1%positive]} ∪ ∅ ∪ ∅ : gset loc) ∧
                   cells single_mem !! a = Some c ∧ data c = 5) ∧
    (5 ∉ elements (Br Leaf 5 Leaf) -> q = NULL).
Proof.
  assert (Hb : bst (Br Leaf 5 Leaf)) by (cbn; split_and!; constructor).
  split; [exact single_mem_tree|]. split; [exact Hb|]. split; [cbn; lia|].
  apply (search_in_ordered_tree (Br Leaf 5 Leaf) 2 (Some 1%positive) 5 single_mem
           ({[1%positive]} ∪ ∅ ∪ ∅) single_mem_tree Hb); cbn; lia.
Defined.

(** The ordering is needed: in a tree that is not ordered, [search] misses
    a value that a cell of the tree holds. *)
Example search_needs_order :
  search 3 (Some 1%positive) 7 unordered_mem = Done NULL unordered_mem.
Proof. vm_compute. reflexivity. Qed.
